(** * LevelDB port configuration header (port/port_config.h)

    The header is preprocessor text: five blocks, each of the shape
    "define the macro unless it is already defined", wrapped in an
    include guard.  The development below embeds the header as a
    program in a small state-and-error monad over the preprocessor's
    macro table, and proves what the header leaves in that table.

    What is modelled of the preprocessor:
    - the macro table, from names to replacement lists; the [-D]
      options of the build are its initial content;
    - [defined], [__has_include], [#include], [#define] and the
      conditionals, with the compiler assumed to know [__has_include];
    - a system header by its net effect: the macros it defines and the
      functions it declares.  A function-like macro counts as a macro
      of that name.  System headers contain no [#undef] and no
      [#error];
    - next to the table, the declarations made visible and the trace of
      the tests and inclusions evaluated, which the header itself never
      reads. *)

From stdpp Require Import gmap strings list fin_maps.
From Stdlib Require Import ZArith.

Local Open Scope Z_scope.

(** ** Data model *)

(** The replacement list of an object-like macro, parsed.  The header
    only ever writes [1], [0], [true], [false] and a parenthesised
    equality of two identifiers; the include guard has an empty
    replacement list. *)
Inductive pp_expr : Type :=
  | EEmpty
  | ENum (n : Z)
  | EBool (b : bool)
  | EId (x : string)
  | EEq (a b : pp_expr).

Global Instance pp_expr_eq_dec : EqDecision pp_expr.
Proof. solve_decision. Defined.

(** What a system header brings into the translation unit: the macros
    it defines (with everything it includes itself) and the functions
    it merely declares. *)
Record header : Type := Header {
  h_macros : gmap string pp_expr;
  h_decls : gset string
}.

(** The target platform as the preprocessor sees it: the headers found
    on the include path.  Platform identity ([OS_MACOSX], ...) and
    overrides ([-DHAVE_SNAPPY=0], ...) are macros of the initial
    table, as they are for the compiler. *)
Record platform : Type := Platform {
  headers : gmap string header
}.

(** Every test and every inclusion the preprocessor evaluates. *)
Inductive event : Type :=
  | EvDefined (x : string)
  | EvHasInclude (h : string)
  | EvInclude (h : string).

Global Instance event_eq_dec : EqDecision event.
Proof. solve_decision. Defined.

Record pp_state : Type := State {
  macros : gmap string pp_expr;
  decls : gset string;
  trace : list event
}.

(** The header contains no [#error]: the one way preprocessing it can
    stop is an [#include] of a header that is not found. *)
Inductive pp_error : Type :=
  | MissingHeader (h : string).

Inductive result (A : Type) : Type :=
  | Ok (a : A) (s : pp_state)
  | Fatal (e : pp_error).
Arguments Ok {A} a s.
Arguments Fatal {A} e.

(** ** The preprocessing monad *)

Definition PP (A : Type) : Type := platform → pp_state → result A.

Global Instance pp_ret : MRet PP := λ A a _ s, Ok a s.

Global Instance pp_bind : MBind PP := λ A B f m P s,
  match m P s with
  | Ok a s' => f a P s'
  | Fatal e => Fatal e
  end.

Definition log (e : event) (s : pp_state) : pp_state :=
  State (macros s) (decls s) (trace s ++ [e]).

(** [defined(x)] *)
Definition defined (x : string) : PP bool := λ _ s,
  Ok (bool_decide (is_Some (macros s !! x))) (log (EvDefined x) s).

(** [__has_include(<h>)] *)
Definition has_include (h : string) : PP bool := λ P s,
  Ok (bool_decide (is_Some (headers P !! h))) (log (EvHasInclude h) s).

(** [#include <h>]: fatal when the header is not found; otherwise its
    macro definitions enter the table (a definition of the header
    replaces an earlier one of the same name) and its declarations
    become visible. *)
Definition include (h : string) : PP unit := λ P s,
  match headers P !! h with
  | None => Fatal (MissingHeader h)
  | Some H =>
      Ok tt (State (h_macros H ∪ macros s) (h_decls H ∪ decls s)
                   (trace s ++ [EvInclude h]))
  end.

(** [#define x e] *)
Definition define (x : string) (e : pp_expr) : PP unit := λ _ s,
  Ok tt (State (<[x := e]> (macros s)) (decls s) (trace s)).

(** [!c], [a || b], [a && b] of a controlling expression; the binary
    operators do not evaluate their right operand when the left one
    decides. *)
Definition pp_not (c : PP bool) : PP bool := b ← c; mret (negb b).
Definition pp_or (a b : PP bool) : PP bool :=
  x ← a; if x : bool then mret true else b.
Definition pp_and (a b : PP bool) : PP bool :=
  x ← a; if x : bool then b else mret false.

(** [#if c ... #else ... #endif] and [#if c ... #endif] *)
Definition pp_if (c : PP bool) (t e : PP unit) : PP unit :=
  b ← c; if b : bool then t else e.
Definition pp_when (c : PP bool) (t : PP unit) : PP unit :=
  pp_if c t (mret tt).

(** ** The header, block by block *)

(** Lines 9-20: check for fdatasync() in <unistd.h>. *)
Definition check_fdatasync : PP unit :=
  pp_when (pp_not (defined "HAVE_FDATASYNC"))
    (pp_if (has_include "unistd.h")
       (include "unistd.h" ;;
        pp_if (defined "fdatasync")
          (define "HAVE_FDATASYNC" (ENum 1))
          (define "HAVE_FDATASYNC" (ENum 0)))
       (define "HAVE_FDATASYNC" (ENum 0))).

(** Lines 23-34: check for F_FULLFSYNC in <fcntl.h>. *)
Definition check_fullfsync : PP unit :=
  pp_when (pp_not (defined "HAVE_FULLFSYNC"))
    (pp_if (has_include "fcntl.h")
       (include "fcntl.h" ;;
        pp_if (defined "F_FULLFSYNC")
          (define "HAVE_FULLFSYNC" (ENum 1))
          (define "HAVE_FULLFSYNC" (ENum 0)))
       (define "HAVE_FULLFSYNC" (ENum 0))).

(** Lines 37-39: check CRC32C. *)
Definition check_crc32c : PP unit :=
  pp_when (pp_not (defined "HAVE_CRC32C"))
    (define "HAVE_CRC32C" (ENum 0)).

(** Lines 42-44: check Snappy. *)
Definition check_snappy : PP unit :=
  pp_when (pp_not (defined "HAVE_SNAPPY"))
    (define "HAVE_SNAPPY" (ENum 1)).

(** Lines 47-79: check endianness.  The [#if]/[#elif] chain is a
    nest of [pp_if], one per arm, in the order of the source. *)
Definition check_endianness : PP unit :=
  pp_when (pp_not (defined "LEVELDB_IS_BIG_ENDIAN"))
   (pp_if (pp_or (defined "OS_MACOSX") (defined "OS_IOS"))
      (include "machine/endian.h" ;;
       pp_when (pp_and (defined "__DARWIN_BIG_ENDIAN")
                       (defined "__DARWIN_BYTE_ORDER"))
         (define "LEVELDB_IS_BIG_ENDIAN"
            (EEq (EId "__DARWIN_BYTE_ORDER") (EId "__DARWIN_BIG_ENDIAN"))))
   (pp_if (defined "OS_SOLARIS")
      (include "sys/isa_defs.h" ;;
       pp_if (defined "_BIG_ENDIAN")
         (define "LEVELDB_IS_BIG_ENDIAN" (EBool true))
         (define "LEVELDB_IS_BIG_ENDIAN" (EBool false)))
   (pp_if (pp_or (pp_or (pp_or (defined "OS_FREEBSD") (defined "OS_OPENBSD"))
                        (defined "OS_NETBSD")) (defined "OS_DRAGONFLYBSD"))
      (include "sys/types.h" ;;
       include "sys/endian.h" ;;
       define "LEVELDB_IS_BIG_ENDIAN"
         (EEq (EId "_BYTE_ORDER") (EId "_BIG_ENDIAN")))
   (pp_if (defined "OS_HPUX")
      (define "LEVELDB_IS_BIG_ENDIAN" (EBool true))
   (pp_if (defined "OS_ANDROID")
      (include "endian.h" ;;
       define "LEVELDB_IS_BIG_ENDIAN"
         (EEq (EId "_BYTE_ORDER") (EId "_BIG_ENDIAN")))
      (include "endian.h" ;;
       define "LEVELDB_IS_BIG_ENDIAN"
         (EEq (EId "__BYTE_ORDER") (EId "__BIG_ENDIAN")))))))).

(** Lines 5-81: the whole header under its include guard. *)
Definition port_config : PP unit :=
  pp_when (pp_not (defined "STORAGE_LEVELDB_PORT_PORT_CONFIG_H_"))
    (define "STORAGE_LEVELDB_PORT_PORT_CONFIG_H_" EEmpty ;;
     check_fdatasync ;;
     check_fullfsync ;;
     check_crc32c ;;
     check_snappy ;;
     check_endianness).

(** ** The five facts *)

Inductive fact : Type :=
  | HasRangeSync
  | HasFullFsync
  | HasHardwareCrc
  | HasCompressionLib
  | IsBigEndian.

(** The macro that carries each fact, and the block that resolves it. *)
Definition fact_macro (f : fact) : string :=
  match f with
  | HasRangeSync => "HAVE_FDATASYNC"
  | HasFullFsync => "HAVE_FULLFSYNC"
  | HasHardwareCrc => "HAVE_CRC32C"
  | HasCompressionLib => "HAVE_SNAPPY"
  | IsBigEndian => "LEVELDB_IS_BIG_ENDIAN"
  end.

Definition resolve (f : fact) : PP unit :=
  match f with
  | HasRangeSync => check_fdatasync
  | HasFullFsync => check_fullfsync
  | HasHardwareCrc => check_crc32c
  | HasCompressionLib => check_snappy
  | IsBigEndian => check_endianness
  end.

Definition all_facts : list fact :=
  [HasRangeSync; HasFullFsync; HasHardwareCrc; HasCompressionLib; IsBigEndian].

(** The value a replacement list denotes where the macro is used, in a
    C++ constant expression: identifiers are expanded through the macro
    table, [true] and [false] are 1 and 0, and an identifier that is not
    a macro has no value the preprocessor knows.  [fuel] bounds the
    nesting of operators and expansions. *)
Fixpoint eval (fuel : nat) (m : gmap string pp_expr) (e : pp_expr) : option Z :=
  match fuel with
  | O => None
  | S k =>
      match e with
      | EEmpty => None
      | ENum n => Some n
      | EBool b => Some (Z.b2z b)
      | EId x => m !! x ≫= eval k m
      | EEq a b =>
          x ← eval k m a; y ← eval k m b; Some (Z.b2z (x =? y))
      end
  end.

Definition fact_value (fuel : nat) (s : pp_state) (f : fact) : option Z :=
  macros s !! fact_macro f ≫= eval fuel (macros s).

(** ** Names the build configures *)

Definition include_guard : string := "STORAGE_LEVELDB_PORT_PORT_CONFIG_H_".

Definition os_names : list string :=
  ["OS_MACOSX"; "OS_IOS"; "OS_SOLARIS"; "OS_FREEBSD"; "OS_OPENBSD";
   "OS_NETBSD"; "OS_DRAGONFLYBSD"; "OS_HPUX"; "OS_ANDROID"].

Definition config_names : list string :=
  include_guard :: (fact_macro <$> all_facts) ++ os_names.

(** System headers live in the implementation's name space: none of
    them defines a macro that the build system or this header owns. *)
Definition hygienic (P : platform) : Prop :=
  map_Forall (λ _ H, Forall (λ x, h_macros H !! x = None) config_names)
             (headers P).

Global Instance hygienic_dec P : Decision (hygienic P).
Proof. unfold hygienic. apply _. Defined.

(** ** Running the monad *)

Section run.
Context {A B : Type}.
Implicit Types (P : platform) (s : pp_state).

Lemma run_ret (a : A) P s : mret (M := PP) a P s = Ok a s.
Proof. reflexivity. Qed.

Lemma run_bind (m : PP A) (f : A → PP B) P s :
  (m ≫= f) P s =
    match m P s with Ok a s' => f a P s' | Fatal e => Fatal e end.
Proof. reflexivity. Qed.

Lemma bind_Ok (m : PP A) (f : A → PP B) P s b s' :
  (m ≫= f) P s = Ok b s' ↔ ∃ a s1, m P s = Ok a s1 ∧ f a P s1 = Ok b s'.
Proof.
  rewrite run_bind. split.
  - destruct (m P s) as [a s1|e]; [eauto | discriminate].
  - intros (a & s1 & -> & Hf). exact Hf.
Qed.

End run.

Section run_directives.
Implicit Types (P : platform) (s : pp_state) (c : PP bool) (t e : PP unit).

Lemma run_defined x P s :
  defined x P s = Ok (bool_decide (is_Some (macros s !! x))) (log (EvDefined x) s).
Proof. reflexivity. Qed.

Lemma run_has_include h P s :
  has_include h P s =
    Ok (bool_decide (is_Some (headers P !! h))) (log (EvHasInclude h) s).
Proof. reflexivity. Qed.

Lemma run_define x v P s :
  define x v P s = Ok tt (State (<[x := v]> (macros s)) (decls s) (trace s)).
Proof. reflexivity. Qed.

Lemma run_include h P s :
  include h P s =
    match headers P !! h with
    | Some H => Ok tt (State (h_macros H ∪ macros s) (h_decls H ∪ decls s)
                             (trace s ++ [EvInclude h]))
    | None => Fatal (MissingHeader h)
    end.
Proof. unfold include. by destruct (headers P !! h). Qed.

Lemma run_not c P s :
  pp_not c P s =
    match c P s with Ok b s' => Ok (negb b) s' | Fatal x => Fatal x end.
Proof. reflexivity. Qed.

Lemma run_or (a b : PP bool) P s :
  pp_or a b P s =
    match a P s with
    | Ok x s' => if x then Ok true s' else b P s'
    | Fatal x => Fatal x
    end.
Proof. unfold pp_or. rewrite run_bind. by destruct (a P s) as [[] ?|]. Qed.

Lemma run_and (a b : PP bool) P s :
  pp_and a b P s =
    match a P s with
    | Ok x s' => if x then b P s' else Ok false s'
    | Fatal x => Fatal x
    end.
Proof. unfold pp_and. rewrite run_bind. by destruct (a P s) as [[] ?|]. Qed.

Lemma run_if c t e P s :
  pp_if c t e P s =
    match c P s with
    | Ok b s' => if b then t P s' else e P s'
    | Fatal x => Fatal x
    end.
Proof. unfold pp_if. rewrite run_bind. by destruct (c P s) as [[] ?|]. Qed.

Lemma run_when c t P s :
  pp_when c t P s =
    match c P s with
    | Ok b s' => if b then t P s' else Ok tt s'
    | Fatal x => Fatal x
    end.
Proof. unfold pp_when. by rewrite run_if. Qed.

Lemma macros_log ev s : macros (log ev s) = macros s.
Proof. reflexivity. Qed.
Lemma decls_log ev s : decls (log ev s) = decls s.
Proof. reflexivity. Qed.
Lemma trace_log ev s : trace (log ev s) = trace s ++ [ev].
Proof. reflexivity. Qed.
End run_directives.

Create Rewrite HintDb pp.
#[export] Hint Rewrite @run_ret @run_bind run_defined run_has_include
  run_define run_not run_or run_and run_if run_when
  macros_log decls_log trace_log : pp.

(** One step of symbolic execution: rewrite with the run equations and
    reduce the matches those expose. *)
Ltac pp_run :=
  repeat (progress (autorewrite with pp; cbn [macros decls trace negb])).

(** ** What a directive cannot do *)

(** A directive [grows] the macro table: nothing in the header is an
    [#undef], so a name that is defined stays defined. *)
Definition grows {A} (m : PP A) : Prop :=
  ∀ P s a s' x,
    m P s = Ok a s' → is_Some (macros s !! x) → is_Some (macros s' !! x).

(** A directive [frames] a name when, on a hygienic platform, it leaves
    the definition of that name as it found it. *)
Definition frames {A} (x : string) (m : PP A) : Prop :=
  ∀ P s a s',
    hygienic P → m P s = Ok a s' → macros s' !! x = macros s !! x.

Lemma hygienic_lookup P h H x :
  hygienic P → headers P !! h = Some H → x ∈ config_names →
  h_macros H !! x = None.
Proof.
  intros HP Hh Hx. specialize (HP h H Hh). cbn beta in HP.
  rewrite Forall_forall in HP. by apply HP.
Qed.

Section combinators.
Context {A B : Type}.

Lemma grows_ret (a : A) : grows (mret a).
Proof. intros P s a' s' x. rewrite run_ret. by intros [= _ <-]. Qed.

Lemma grows_bind (m : PP A) (f : A → PP B) :
  grows m → (∀ a, grows (f a)) → grows (m ≫= f).
Proof.
  intros Hm Hf P s b s' x (a & s1 & H1 & H2)%bind_Ok Hx.
  eapply Hf; [exact H2 |]. eapply Hm; [exact H1 | exact Hx].
Qed.

Lemma frames_ret x (a : A) : frames x (mret a).
Proof. intros P s a' s' _. rewrite run_ret. by intros [= _ <-]. Qed.

Lemma frames_bind x (m : PP A) (f : A → PP B) :
  frames x m → (∀ a, frames x (f a)) → frames x (m ≫= f).
Proof.
  intros Hm Hf P s b s' HP (a & s1 & H1 & H2)%bind_Ok.
  rewrite (Hf a P s1 b s' HP H2). exact (Hm P s a s1 HP H1).
Qed.
End combinators.

Lemma grows_defined x : grows (defined x).
Proof. intros P s a s' y. rewrite run_defined. by intros [= _ <-]. Qed.

Lemma grows_has_include h : grows (has_include h).
Proof. intros P s a s' y. rewrite run_has_include. by intros [= _ <-]. Qed.

Lemma grows_define x v : grows (define x v).
Proof.
  intros P s a s' y. rewrite run_define. intros [= _ <-] Hy. cbn [macros].
  rewrite lookup_insert. case_decide; [by eexists | done].
Qed.

Lemma grows_include h : grows (include h).
Proof.
  intros P s a s' y. rewrite run_include.
  destruct (headers P !! h) as [H|]; [| discriminate].
  intros [= _ <-] [v Hv]. cbn [macros].
  destruct (h_macros H !! y) as [w|] eqn:Hw.
  - exists w. by apply lookup_union_Some_l.
  - exists v. by rewrite lookup_union_r.
Qed.

Lemma frames_defined x y : frames x (defined y).
Proof. intros P s a s' _. rewrite run_defined. by intros [= _ <-]. Qed.

Lemma frames_has_include x h : frames x (has_include h).
Proof. intros P s a s' _. rewrite run_has_include. by intros [= _ <-]. Qed.

Lemma frames_define x y v : x ≠ y → frames x (define y v).
Proof.
  intros Hxy P s a s' _. rewrite run_define. intros [= _ <-]. cbn [macros].
  by rewrite lookup_insert_ne.
Qed.

Lemma frames_include x h : x ∈ config_names → frames x (include h).
Proof.
  intros Hx P s a s' HP. rewrite run_include.
  destruct (headers P !! h) as [H|] eqn:Hh; [| discriminate].
  intros [= _ <-]. cbn [macros].
  apply lookup_union_r. by eapply hygienic_lookup.
Qed.

Section control.
Implicit Types (c a b : PP bool) (t e : PP unit).

Lemma grows_not c : grows c → grows (pp_not c).
Proof. intros. apply grows_bind; [done | intros; apply grows_ret]. Qed.
Lemma grows_or a b : grows a → grows b → grows (pp_or a b).
Proof.
  intros. apply grows_bind; [done |]. intros []; [apply grows_ret | done].
Qed.
Lemma grows_and a b : grows a → grows b → grows (pp_and a b).
Proof.
  intros. apply grows_bind; [done |]. intros []; [done | apply grows_ret].
Qed.
Lemma grows_if c t e : grows c → grows t → grows e → grows (pp_if c t e).
Proof. intros. apply grows_bind; [done |]. by intros []. Qed.
Lemma grows_when c t : grows c → grows t → grows (pp_when c t).
Proof. intros. apply grows_if; [done | done | apply grows_ret]. Qed.

Lemma frames_not x c : frames x c → frames x (pp_not c).
Proof. intros. apply frames_bind; [done | intros; apply frames_ret]. Qed.
Lemma frames_or x a b : frames x a → frames x b → frames x (pp_or a b).
Proof.
  intros. apply frames_bind; [done |]. intros []; [apply frames_ret | done].
Qed.
Lemma frames_and x a b : frames x a → frames x b → frames x (pp_and a b).
Proof.
  intros. apply frames_bind; [done |]. intros []; [done | apply frames_ret].
Qed.
Lemma frames_if x c t e :
  frames x c → frames x t → frames x e → frames x (pp_if c t e).
Proof. intros. apply frames_bind; [done |]. by intros []. Qed.
Lemma frames_when x c t : frames x c → frames x t → frames x (pp_when c t).
Proof. intros. apply frames_if; [done | done | apply frames_ret]. Qed.
End control.

Create HintDb pp_grows discriminated.
#[export] Hint Resolve grows_ret grows_defined grows_has_include
  grows_define grows_include grows_not grows_or grows_and grows_if
  grows_when : pp_grows.

Ltac solve_grows :=
  repeat first
    [ apply grows_when | apply grows_if | apply grows_not
    | apply grows_or | apply grows_and
    | apply grows_ret | apply grows_defined | apply grows_has_include
    | apply grows_include | apply grows_define
    | apply grows_bind; [| intros ?] ].

Ltac solve_frames :=
  repeat first
    [ apply frames_when | apply frames_if | apply frames_not
    | apply frames_or | apply frames_and
    | apply frames_ret | apply frames_defined | apply frames_has_include
    | apply frames_include; assumption
    | apply frames_define; assumption
    | apply frames_bind; [| intros ?] ].

Lemma grows_check_fdatasync : grows check_fdatasync.
Proof. unfold check_fdatasync. solve_grows. Qed.
Lemma grows_check_fullfsync : grows check_fullfsync.
Proof. unfold check_fullfsync. solve_grows. Qed.
Lemma grows_check_crc32c : grows check_crc32c.
Proof. unfold check_crc32c. solve_grows. Qed.
Lemma grows_check_snappy : grows check_snappy.
Proof. unfold check_snappy. solve_grows. Qed.
Lemma grows_check_endianness : grows check_endianness.
Proof. unfold check_endianness. solve_grows. Qed.

#[export] Hint Resolve grows_check_fdatasync grows_check_fullfsync
  grows_check_crc32c grows_check_snappy grows_check_endianness : pp_grows.

Lemma grows_resolve f : grows (resolve f).
Proof. destruct f; cbn [resolve]; eauto with pp_grows. Qed.

(** A block only ever defines the macro of its own fact. *)
Lemma frames_resolve f x :
  x ∈ config_names → x ≠ fact_macro f → frames x (resolve f).
Proof.
  intros Hx Hne.
  destruct f; cbn [resolve fact_macro] in *;
    unfold check_fdatasync, check_fullfsync, check_crc32c, check_snappy,
      check_endianness; solve_frames.
Qed.

(** ** The blocks, one by one *)

(** A block whose macro is already defined evaluates the test of its
    first line and nothing else. *)
Lemma resolve_override f P s :
  is_Some (macros s !! fact_macro f) →
  resolve f P s = Ok tt (log (EvDefined (fact_macro f)) s).
Proof.
  intros Hs. destruct f; cbn [resolve fact_macro] in *.
  all: unfold check_fdatasync, check_fullfsync, check_crc32c, check_snappy,
    check_endianness.
  all: by rewrite run_when, run_not, run_defined, bool_decide_true.
Qed.

(** The two sync blocks are one probe, instantiated twice. *)
Definition probe_block (flag hdr sym : string) : PP unit :=
  pp_when (pp_not (defined flag))
    (pp_if (has_include hdr)
       (include hdr ;;
        pp_if (defined sym) (define flag (ENum 1)) (define flag (ENum 0)))
       (define flag (ENum 0))).

Lemma check_fdatasync_probe :
  check_fdatasync = probe_block "HAVE_FDATASYNC" "unistd.h" "fdatasync".
Proof. reflexivity. Qed.

Lemma check_fullfsync_probe :
  check_fullfsync = probe_block "HAVE_FULLFSYNC" "fcntl.h" "F_FULLFSYNC".
Proof. reflexivity. Qed.

Definition is_defined (m : gmap string pp_expr) (x : string) : bool :=
  bool_decide (is_Some (m !! x)).

(** The macro table [m] once [h] has been included, if it can be. *)
Definition with_header (P : platform) (m : gmap string pp_expr) (h : string)
    : gmap string pp_expr :=
  match headers P !! h with
  | Some H => h_macros H ∪ m
  | None => m
  end.

(** The probe's answer in table [m]: the header is found and, once it
    is included, [sym] is the name of a macro. *)
Definition detects (hdr sym : string) (P : platform)
    (m : gmap string pp_expr) : bool :=
  bool_decide (is_Some (headers P !! hdr)) &&
  is_defined (with_header P m hdr) sym.

Lemma probe_block_run flag hdr sym P s :
  macros s !! flag = None →
  ∃ s', probe_block flag hdr sym P s = Ok tt s' ∧
    macros s' = <[flag := ENum (Z.b2z (detects hdr sym P (macros s)))]>
                  (with_header P (macros s) hdr) ∧
    decls s' = match headers P !! hdr with
               | Some H => h_decls H ∪ decls s
               | None => decls s
               end.
Proof.
  intros Hs. unfold probe_block, detects, with_header, is_defined.
  pp_run. rewrite Hs.
  rewrite bool_decide_false by (by intros [??]). cbn [negb].
  rewrite run_include.
  destruct (headers P !! hdr) as [H|] eqn:HH.
  - rewrite bool_decide_true by done. pp_run.
    case_bool_decide; cbn [andb Z.b2z]; by eexists.
  - rewrite bool_decide_false by (by intros [??]). by eexists.
Qed.

Lemma default_block_run flag v P s :
  macros s !! flag = None →
  pp_when (pp_not (defined flag)) (define flag v) P s =
    Ok tt (State (<[flag := v]> (macros s)) (decls s)
                 (trace s ++ [EvDefined flag])).
Proof.
  intros Hs. pp_run. rewrite Hs.
  by rewrite bool_decide_false by (by intros [??]).
Qed.

(** The four capability blocks cannot fail, and each leaves its macro
    defined. *)
Lemma resolve_capability f P s :
  f ≠ IsBigEndian →
  ∃ s', resolve f P s = Ok tt s' ∧ is_Some (macros s' !! fact_macro f).
Proof.
  intros Hf. destruct (macros s !! fact_macro f) as [v|] eqn:Hs.
  { rewrite resolve_override by done. eexists; split; [done |].
    rewrite macros_log, Hs. done. }
  destruct f; cbn [resolve fact_macro] in *; [ | | | | done].
  - rewrite check_fdatasync_probe.
    destruct (probe_block_run _ "unistd.h" "fdatasync" P s Hs)
      as (s' & -> & Hm & _).
    eexists; split; [done |]. by rewrite Hm, lookup_insert_eq.
  - rewrite check_fullfsync_probe.
    destruct (probe_block_run _ "fcntl.h" "F_FULLFSYNC" P s Hs)
      as (s' & -> & Hm & _).
    eexists; split; [done |]. by rewrite Hm, lookup_insert_eq.
  - unfold check_crc32c. rewrite default_block_run by done.
    eexists; split; [done |]. cbn [macros]. by rewrite lookup_insert_eq.
  - unfold check_snappy. rewrite default_block_run by done.
    eexists; split; [done |]. cbn [macros]. by rewrite lookup_insert_eq.
Qed.

(** A name of the configuration that is defined when a block starts has
    the same definition when the block ends. *)
Lemma resolve_keeps f x v P s s' :
  hygienic P → x ∈ config_names →
  resolve f P s = Ok tt s' →
  macros s !! x = Some v → macros s' !! x = Some v.
Proof.
  intros HP Hx Hrun Hv. destruct (decide (x = fact_macro f)) as [-> | Hne].
  - rewrite resolve_override in Hrun by done. by injection Hrun as <-.
  - by rewrite (frames_resolve f x Hx Hne P s tt s' HP Hrun).
Qed.

(** ** The endianness block as dispatch plus arm *)

Inductive rule : Type :=
  | Apple | Solaris | Bsd | Hpux | Android | Generic.

(** The arm of the [#if]/[#elif] chain that the platform macros select:
    the first whose test holds, the [#else] arm when none does. *)
Definition matched_rule (m : gmap string pp_expr) : rule :=
  if is_defined m "OS_MACOSX" || is_defined m "OS_IOS" then Apple
  else if is_defined m "OS_SOLARIS" then Solaris
  else if is_defined m "OS_FREEBSD" || is_defined m "OS_OPENBSD" ||
          is_defined m "OS_NETBSD" || is_defined m "OS_DRAGONFLYBSD" then Bsd
  else if is_defined m "OS_HPUX" then Hpux
  else if is_defined m "OS_ANDROID" then Android
  else Generic.

(** The headers an arm includes, in order. *)
Definition rule_headers (r : rule) : list string :=
  match r with
  | Apple => ["machine/endian.h"]
  | Solaris => ["sys/isa_defs.h"]
  | Bsd => ["sys/types.h"; "sys/endian.h"]
  | Hpux => []
  | Android => ["endian.h"]
  | Generic => ["endian.h"]
  end.

(** The body of each arm, as in the source. *)
Definition arm (r : rule) : PP unit :=
  match r with
  | Apple =>
      include "machine/endian.h" ;;
      pp_when (pp_and (defined "__DARWIN_BIG_ENDIAN")
                      (defined "__DARWIN_BYTE_ORDER"))
        (define "LEVELDB_IS_BIG_ENDIAN"
           (EEq (EId "__DARWIN_BYTE_ORDER") (EId "__DARWIN_BIG_ENDIAN")))
  | Solaris =>
      include "sys/isa_defs.h" ;;
      pp_if (defined "_BIG_ENDIAN")
        (define "LEVELDB_IS_BIG_ENDIAN" (EBool true))
        (define "LEVELDB_IS_BIG_ENDIAN" (EBool false))
  | Bsd =>
      include "sys/types.h" ;;
      include "sys/endian.h" ;;
      define "LEVELDB_IS_BIG_ENDIAN"
        (EEq (EId "_BYTE_ORDER") (EId "_BIG_ENDIAN"))
  | Hpux =>
      define "LEVELDB_IS_BIG_ENDIAN" (EBool true)
  | Android =>
      include "endian.h" ;;
      define "LEVELDB_IS_BIG_ENDIAN"
        (EEq (EId "_BYTE_ORDER") (EId "_BIG_ENDIAN"))
  | Generic =>
      include "endian.h" ;;
      define "LEVELDB_IS_BIG_ENDIAN"
        (EEq (EId "__BYTE_ORDER") (EId "__BIG_ENDIAN"))
  end.

(** The first header of a list that the platform does not have. *)
Definition first_missing (P : platform) (hs : list string) : option string :=
  List.find (λ h, bool_decide (headers P !! h = None)) hs.

(** What an arm defines [LEVELDB_IS_BIG_ENDIAN] as, given the table [m]
    its includes have produced; [None] when it defines nothing. *)
Definition arm_definition (r : rule) (m : gmap string pp_expr) : option pp_expr :=
  match r with
  | Apple =>
      if is_defined m "__DARWIN_BIG_ENDIAN" && is_defined m "__DARWIN_BYTE_ORDER"
      then Some (EEq (EId "__DARWIN_BYTE_ORDER") (EId "__DARWIN_BIG_ENDIAN"))
      else None
  | Solaris => Some (EBool (is_defined m "_BIG_ENDIAN"))
  | Bsd | Android => Some (EEq (EId "_BYTE_ORDER") (EId "_BIG_ENDIAN"))
  | Hpux => Some (EBool true)
  | Generic => Some (EEq (EId "__BYTE_ORDER") (EId "__BIG_ENDIAN"))
  end.

Definition arm_table (r : rule) (P : platform) (m : gmap string pp_expr)
    : gmap string pp_expr :=
  let m' := foldl (with_header P) m (rule_headers r) in
  match arm_definition r m' with
  | Some e => <["LEVELDB_IS_BIG_ENDIAN" := e]> m'
  | None => m'
  end.

Lemma check_endianness_dispatch P s :
  macros s !! "LEVELDB_IS_BIG_ENDIAN" = None →
  ∃ tr, check_endianness P s =
          arm (matched_rule (macros s)) P (State (macros s) (decls s) tr).
Proof.
  intros Hs. unfold check_endianness, matched_rule, is_defined.
  pp_run. rewrite Hs, bool_decide_false by (by intros [??]). cbn [negb].
  repeat (case_bool_decide; cbn [orb]; pp_run); by eexists.
Qed.

Lemma arm_run r P s :
  match first_missing P (rule_headers r) with
  | Some h => arm r P s = Fatal (MissingHeader h)
  | None => ∃ s', arm r P s = Ok tt s' ∧ macros s' = arm_table r P (macros s)
  end.
Proof.
  unfold first_missing, arm_table, arm_definition, with_header, is_defined.
  destruct r; cbn [arm rule_headers List.find foldl];
    repeat match goal with
    | |- context [headers P !! ?h] => destruct (headers P !! h) eqn:?
    end;
    rewrite ?bool_decide_true by done;
    rewrite ?bool_decide_false by done;
    repeat (pp_run; rewrite ?run_include;
            repeat match goal with
            | E : headers P !! _ = _ |- _ => rewrite E
            end);
    try done.
  all: repeat (case_bool_decide; cbn [andb]; pp_run); by eexists.
Qed.

(** ** The header as a sequence of blocks *)

(** The state in which the first block starts when the guard was not
    yet defined: the guard test has been evaluated and the guard is
    defined. *)
Definition enter (s : pp_state) : pp_state :=
  State (<[include_guard := EEmpty]> (macros s)) (decls s)
        (trace s ++ [EvDefined include_guard]).

Definition run_blocks (fs : list fact) : PP unit :=
  foldr (λ f k, resolve f ;; k) (mret tt) fs.

Lemma port_config_guarded P s :
  is_Some (macros s !! include_guard) →
  port_config P s = Ok tt (log (EvDefined include_guard) s).
Proof.
  intros Hs. unfold port_config, include_guard in *.
  by rewrite run_when, run_not, run_defined, bool_decide_true.
Qed.

Lemma port_config_fresh P s :
  macros s !! include_guard = None →
  port_config P s = run_blocks all_facts P (enter s).
Proof.
  intros Hs. unfold port_config, include_guard in *.
  rewrite run_when, run_not, run_defined, Hs.
  rewrite bool_decide_false by (by intros [??]). cbn [negb].
  rewrite run_bind, run_define. cbn [run_blocks all_facts foldr resolve].
  unfold enter, include_guard, log. cbn [macros decls trace].
  repeat (rewrite !run_bind;
    match goal with
    | |- context [match ?m P ?t with _ => _ end] =>
        destruct (m P t) as [[] ?|]; try reflexivity
    end).
Qed.

Lemma run_blocks_app pre post P s s' :
  run_blocks (pre ++ post) P s = Ok tt s' ↔
  ∃ s1, run_blocks pre P s = Ok tt s1 ∧ run_blocks post P s1 = Ok tt s'.
Proof.
  revert s. induction pre as [|f pre IH]; intros s; cbn [app run_blocks foldr].
  - rewrite run_ret. split; [eauto |]. by intros (s1 & [= <-] & H).
  - fold (run_blocks (pre ++ post)). fold (run_blocks pre).
    rewrite !bind_Ok. split.
    + intros ([] & s1 & H1 & (s2 & H2 & H3)%IH).
      exists s2. split; [| done]. apply bind_Ok. by exists tt, s1.
    + intros (s2 & ([] & s1 & H1 & H2)%bind_Ok & H3). exists tt, s1.
      split; [done |]. apply IH. eauto.
Qed.

Lemma run_blocks_cons f fs P s s' :
  run_blocks (f :: fs) P s = Ok tt s' ↔
  ∃ s1, resolve f P s = Ok tt s1 ∧ run_blocks fs P s1 = Ok tt s'.
Proof.
  cbn [run_blocks foldr]. fold (run_blocks fs). rewrite bind_Ok.
  split; [intros ([] & ?) | intros (s1 & ?); exists tt]; eauto.
Qed.

Lemma grows_run_blocks fs : grows (run_blocks fs).
Proof.
  induction fs as [|f fs IH]; cbn [run_blocks foldr]; [apply grows_ret |].
  apply grows_bind; [apply grows_resolve | intros _; exact IH].
Qed.

Lemma frames_run_blocks x fs :
  x ∈ config_names → x ∉ fact_macro <$> fs → frames x (run_blocks fs).
Proof.
  intros Hx. induction fs as [|f fs IH]; cbn [run_blocks foldr fmap list_fmap];
    intros Hfs; [apply frames_ret |].
  apply not_elem_of_cons in Hfs as [Hne Hfs].
  apply frames_bind; [by apply frames_resolve | intros _; by apply IH].
Qed.

Lemma run_blocks_keeps fs x v P s s' :
  hygienic P → x ∈ config_names →
  run_blocks fs P s = Ok tt s' →
  macros s !! x = Some v → macros s' !! x = Some v.
Proof.
  intros HP Hx. revert s. induction fs as [|f fs IH]; intros s.
  - cbn [run_blocks foldr]. rewrite run_ret. by intros [= <-].
  - intros (s1 & H1 & H2)%run_blocks_cons Hv.
    eapply IH; [exact H2 |]. by eapply resolve_keeps.
Qed.

(** Only the endianness block can stop the preprocessor. *)
Lemma run_blocks_capabilities fs P s :
  IsBigEndian ∉ fs → ∃ s', run_blocks fs P s = Ok tt s'.
Proof.
  revert s. induction fs as [|f fs IH]; intros s Hfs.
  - by eexists.
  - apply not_elem_of_cons in Hfs as [Hne Hfs].
    destruct (resolve_capability f P s) as (s1 & H1 & _); [done |].
    destruct (IH s1 Hfs) as (s' & H2).
    exists s'. apply run_blocks_cons. eauto.
Qed.

Lemma run_blocks_app_eq pre post P s :
  run_blocks (pre ++ post) P s =
    match run_blocks pre P s with
    | Ok _ s1 => run_blocks post P s1
    | Fatal e => Fatal e
    end.
Proof.
  revert s. induction pre as [|f pre IH]; intros s; [done |].
  cbn [app run_blocks foldr]. fold (run_blocks (pre ++ post)).
  fold (run_blocks pre). rewrite !run_bind.
  destruct (resolve f P s) as [[] s1|e]; [apply IH | done].
Qed.

Lemma run_blocks_single f P s : run_blocks [f] P s = resolve f P s.
Proof.
  cbn [run_blocks foldr]. rewrite run_bind.
  by destruct (resolve f P s) as [[] ?|].
Qed.

(** The blocks before and after the block of a fact. *)
Definition before (f : fact) : list fact :=
  match f with
  | HasRangeSync => []
  | HasFullFsync => [HasRangeSync]
  | HasHardwareCrc => [HasRangeSync; HasFullFsync]
  | HasCompressionLib => [HasRangeSync; HasFullFsync; HasHardwareCrc]
  | IsBigEndian => [HasRangeSync; HasFullFsync; HasHardwareCrc; HasCompressionLib]
  end.

Definition after (f : fact) : list fact :=
  match f with
  | HasRangeSync => [HasFullFsync; HasHardwareCrc; HasCompressionLib; IsBigEndian]
  | HasFullFsync => [HasHardwareCrc; HasCompressionLib; IsBigEndian]
  | HasHardwareCrc => [HasCompressionLib; IsBigEndian]
  | HasCompressionLib => [IsBigEndian]
  | IsBigEndian => []
  end.

Ltac not_in_list H :=
  repeat (apply elem_of_cons in H as [H|H]; [discriminate |]);
  by apply elem_of_nil in H.

Lemma all_facts_split f : all_facts = before f ++ f :: after f.
Proof. by destruct f. Qed.

Global Instance fact_eq_dec : EqDecision fact.
Proof. solve_decision. Defined.

Lemma fact_macro_inj : Inj (=) (=) fact_macro.
Proof. intros [] []; cbn [fact_macro]; congruence. Qed.

Lemma fact_macro_config f : fact_macro f ∈ config_names.
Proof.
  unfold config_names. apply elem_of_cons. right. apply elem_of_app. left.
  apply list_elem_of_fmap. exists f. split; [done |].
  destruct f; unfold all_facts; repeat constructor.
Qed.

Lemma fact_macro_not_before f : fact_macro f ∉ fact_macro <$> before f.
Proof.
  intros (g & Hg%fact_macro_inj & Hin)%list_elem_of_fmap. subst g.
  destruct f; cbn [before] in Hin; not_in_list Hin.
Qed.

Lemma fact_macro_not_guard f : fact_macro f ≠ include_guard.
Proof. by destruct f. Qed.

Lemma before_capabilities f : IsBigEndian ∉ before f.
Proof. destruct f; cbn [before]; intros Hin; not_in_list Hin. Qed.

(** The block of every fact is reached unless the preprocessor stopped
    before; it starts in a state where the fact's macro is as the build
    passed it, and what it leaves for that macro is what the header
    leaves. *)
Lemma port_config_block f P s s' :
  hygienic P →
  macros s !! include_guard = None →
  port_config P s = Ok tt s' →
  ∃ s1 s2,
    run_blocks (before f) P (enter s) = Ok tt s1 ∧
    resolve f P s1 = Ok tt s2 ∧
    run_blocks (after f) P s2 = Ok tt s' ∧
    macros s1 !! fact_macro f = macros s !! fact_macro f ∧
    macros s' !! fact_macro f = macros s2 !! fact_macro f.
Proof.
  intros HP Hg. rewrite port_config_fresh, (all_facts_split f) by done.
  intros (s1 & H1 & (s2 & H2 & H3)%run_blocks_cons)%run_blocks_app.
  exists s1, s2. split_and!; try done.
  - rewrite (frames_run_blocks _ _ (fact_macro_config f)
               (fact_macro_not_before f) P _ _ _ HP H1).
    cbn [enter macros]. apply lookup_insert_ne.
    intros E. by apply (fact_macro_not_guard f).
  - destruct (macros s2 !! fact_macro f) as [v|] eqn:Hv.
    + eapply run_blocks_keeps; eauto using fact_macro_config.
    + destruct (decide (f = IsBigEndian)) as [-> | Hf].
      * cbn [after run_blocks foldr] in H3. rewrite run_ret in H3.
        by simplify_eq.
      * destruct (resolve_capability f P s1 Hf) as (s2' & E & [w Hw]).
        rewrite E in H2. injection H2 as <-. congruence.
Qed.

(** Only the endianness block can stop the preprocessor: a header whose
    guard was not yet defined ends as its last block ends. *)
Lemma port_config_endianness P s :
  macros s !! include_guard = None →
  ∃ s4, run_blocks (before IsBigEndian) P (enter s) = Ok tt s4 ∧
        port_config P s = check_endianness P s4.
Proof.
  intros Hg.
  destruct (run_blocks_capabilities (before IsBigEndian) P (enter s)
              (before_capabilities _)) as (s4 & H4).
  exists s4. split; [done |].
  rewrite port_config_fresh, (all_facts_split IsBigEndian) by done.
  rewrite run_blocks_app_eq, H4. apply run_blocks_single.
Qed.

Lemma detects_ext hdr sym P m m' :
  m !! sym = m' !! sym → detects hdr sym P m = detects hdr sym P m'.
Proof.
  intros E. unfold detects, with_header, is_defined.
  destruct (headers P !! hdr) as [H|]; [| by rewrite E].
  by rewrite !lookup_union, E.
Qed.

(** ** What a block can evaluate *)

(** The tests and inclusions that make up the detection logic of a
    fact: everything in its block but the test of the first line. *)
Definition probe_events (f : fact) : list event :=
  match f with
  | HasRangeSync =>
      [EvHasInclude "unistd.h"; EvInclude "unistd.h"; EvDefined "fdatasync"]
  | HasFullFsync =>
      [EvHasInclude "fcntl.h"; EvInclude "fcntl.h"; EvDefined "F_FULLFSYNC"]
  | HasHardwareCrc => []
  | HasCompressionLib => []
  | IsBigEndian =>
      (EvDefined <$> os_names) ++
      [EvInclude "machine/endian.h"; EvDefined "__DARWIN_BIG_ENDIAN";
       EvDefined "__DARWIN_BYTE_ORDER"; EvInclude "sys/isa_defs.h";
       EvDefined "_BIG_ENDIAN"; EvInclude "sys/types.h";
       EvInclude "sys/endian.h"; EvInclude "endian.h"]
  end.

Definition block_events (f : fact) : list event :=
  EvDefined (fact_macro f) :: probe_events f.

(** A directive [emits] a list of events when those are all it can add
    to the trace. *)
Definition emits {A} (E : list event) (m : PP A) : Prop :=
  ∀ P s a s',
    m P s = Ok a s' → ∃ tr, trace s' = trace s ++ tr ∧ Forall (.∈ E) tr.

Section emits_monad.
Context {A B : Type} (E : list event).

Lemma emits_ret (x : A) : emits E (mret x).
Proof.
  intros P s a s'. rewrite run_ret. intros [= _ <-].
  exists []. by rewrite app_nil_r.
Qed.

Lemma emits_bind (m : PP A) (f : A → PP B) :
  emits E m → (∀ x, emits E (f x)) → emits E (m ≫= f).
Proof.
  intros Hm Hf P s b s' (x & s1 & H1 & H2)%bind_Ok.
  destruct (Hm P s x s1 H1) as (tr1 & E1 & F1).
  destruct (Hf x P s1 b s' H2) as (tr2 & E2 & F2).
  exists (tr1 ++ tr2). split; [by rewrite E2, E1, app_assoc |].
  by apply Forall_app.
Qed.

Lemma emits_one (m : PP A) ev :
  ev ∈ E → (∀ P s a s', m P s = Ok a s' → trace s' = trace s ++ [ev]) →
  emits E m.
Proof.
  intros Hev Hm P s a s' Hrun. exists [ev].
  split; [by eapply Hm | by apply Forall_singleton].
Qed.
End emits_monad.

Section emits_directives.
Context (E : list event).
Implicit Types (c a b : PP bool) (t e : PP unit).

Lemma emits_defined x : EvDefined x ∈ E → emits E (defined x).
Proof.
  intros Hx. apply (emits_one _ _ _ Hx). intros P s a s'.
  rewrite run_defined. by intros [= _ <-].
Qed.

Lemma emits_has_include h : EvHasInclude h ∈ E → emits E (has_include h).
Proof.
  intros Hx. apply (emits_one _ _ _ Hx). intros P s a s'.
  rewrite run_has_include. by intros [= _ <-].
Qed.

Lemma emits_include h : EvInclude h ∈ E → emits E (include h).
Proof.
  intros Hx. apply (emits_one _ _ _ Hx). intros P s a s'.
  rewrite run_include. destruct (headers P !! h); [| done].
  by intros [= _ <-].
Qed.

Lemma emits_define x v : emits E (define x v).
Proof.
  intros P s a s'. rewrite run_define. intros [= _ <-].
  exists []. by rewrite app_nil_r.
Qed.

Lemma emits_not c : emits E c → emits E (pp_not c).
Proof. intros. apply emits_bind; [done | intros; apply emits_ret]. Qed.
Lemma emits_or a b : emits E a → emits E b → emits E (pp_or a b).
Proof.
  intros. apply emits_bind; [done |]. intros []; [apply emits_ret | done].
Qed.
Lemma emits_and a b : emits E a → emits E b → emits E (pp_and a b).
Proof.
  intros. apply emits_bind; [done |]. intros []; [done | apply emits_ret].
Qed.
Lemma emits_if c t e : emits E c → emits E t → emits E e → emits E (pp_if c t e).
Proof. intros. apply emits_bind; [done |]. by intros []. Qed.
Lemma emits_when c t : emits E c → emits E t → emits E (pp_when c t).
Proof. intros. apply emits_if; [done | done | apply emits_ret]. Qed.
End emits_directives.

Ltac in_list := by (apply (bool_decide_unpack _); vm_compute).

Ltac solve_emits :=
  repeat first
    [ apply emits_when | apply emits_if | apply emits_not
    | apply emits_or | apply emits_and
    | apply emits_ret | apply emits_define
    | apply emits_defined; in_list
    | apply emits_has_include; in_list
    | apply emits_include; in_list
    | apply emits_bind; [| intros ?] ].

(** A block evaluates the test of its first line and its own
    detection logic, nothing of another block. *)
Lemma resolve_emits f : emits (block_events f) (resolve f).
Proof.
  destruct f; cbn [resolve];
    unfold check_fdatasync, check_fullfsync, check_crc32c, check_snappy,
      check_endianness; solve_emits.
Qed.

Lemma block_events_apart f g ev :
  f ≠ g → ev ∈ block_events g → ev ∉ probe_events f.
Proof.
  intros Hne Hg Hf. revert Hg Hf.
  assert (D : bool_decide (Forall (λ ev, ev ∉ probe_events f)
                             (block_events g)) = true)
    by (destruct f, g; try done; by vm_compute).
  apply bool_decide_eq_true in D. rewrite Forall_forall in D.
  intros Hg Hf. by apply (D ev).
Qed.

Lemma guard_test_no_probe f : EvDefined (fact_macro f) ∉ probe_events f.
Proof. destruct f; in_list. Qed.

(** With the macro of [f] defined, no sequence of blocks evaluates any
    of the detection logic of [f]. *)
Lemma run_blocks_quiet f fs P s s' :
  is_Some (macros s !! fact_macro f) →
  run_blocks fs P s = Ok tt s' →
  ∃ tr, trace s' = trace s ++ tr ∧ Forall (.∉ probe_events f) tr.
Proof.
  revert s. induction fs as [|g fs IH]; intros s Hdef.
  - cbn [run_blocks foldr]. rewrite run_ret. intros [= <-].
    exists []. by rewrite app_nil_r.
  - intros (s1 & H1 & H2)%run_blocks_cons.
    destruct (IH s1) as (tr2 & E2 & F2); [| done |].
    { eapply grows_resolve; eauto. }
    assert (∃ tr1, trace s1 = trace s ++ tr1 ∧
                   Forall (.∉ probe_events f) tr1) as (tr1 & E1 & F1).
    { destruct (decide (f = g)) as [<- | Hne].
      - rewrite resolve_override in H1 by done. injection H1 as <-.
        exists [EvDefined (fact_macro f)]. split; [done |].
        apply Forall_singleton, guard_test_no_probe.
      - destruct (resolve_emits g P s tt s1 H1) as (tr1 & E1 & F1).
        exists tr1. split; [done |].
        eapply Forall_impl; [exact F1 |]. intros ev.
        by apply block_events_apart. }
    exists (tr1 ++ tr2). split; [by rewrite E2, E1, app_assoc |].
    by apply Forall_app.
Qed.

(** ** Sample platforms *)

(** The table the compiler starts from: the [-D] options of the build. *)
Definition cmdline (ds : list (string * pp_expr)) : pp_state :=
  State (list_to_map ds) ∅ [].

(** glibc: [fdatasync] is a function, [F_FULLFSYNC] does not exist. *)
Definition glibc_linux : platform :=
  Platform (list_to_map [
    ("unistd.h", Header ∅ {["fdatasync"]});
    ("fcntl.h", Header (list_to_map [("O_RDONLY", ENum 0)]) ∅);
    ("endian.h",
     Header (list_to_map [("__LITTLE_ENDIAN", ENum 1234);
                          ("__BIG_ENDIAN", ENum 4321);
                          ("__BYTE_ORDER", EId "__LITTLE_ENDIAN")]) ∅)]).

(** Darwin on a little-endian machine. *)
Definition darwin : platform :=
  Platform (list_to_map [
    ("unistd.h", Header ∅ ∅);
    ("fcntl.h", Header (list_to_map [("F_FULLFSYNC", ENum 51)]) ∅);
    ("machine/endian.h",
     Header (list_to_map [("__DARWIN_LITTLE_ENDIAN", ENum 1234);
                          ("__DARWIN_BIG_ENDIAN", ENum 4321);
                          ("__DARWIN_BYTE_ORDER", EId "__DARWIN_LITTLE_ENDIAN")])
            ∅)]).


(** FreeBSD on a big-endian machine. *)
Definition freebsd_be : platform :=
  Platform (list_to_map [
    ("unistd.h", Header ∅ {["fdatasync"]});
    ("fcntl.h", Header ∅ ∅);
    ("sys/types.h", Header ∅ ∅);
    ("sys/endian.h",
     Header (list_to_map [("_LITTLE_ENDIAN", ENum 1234);
                          ("_BIG_ENDIAN", ENum 4321);
                          ("_BYTE_ORDER", EId "_BIG_ENDIAN")]) ∅)]).

(** A BSD target whose <sys/endian.h> is found but does not define
    [_BYTE_ORDER]. *)
Definition bsd_bare : platform :=
  Platform (list_to_map [
    ("unistd.h", Header ∅ ∅);
    ("fcntl.h", Header ∅ ∅);
    ("sys/types.h", Header ∅ ∅);
    ("sys/endian.h", Header (list_to_map [("_BIG_ENDIAN", ENum 4321)]) ∅)]).

(** A system whose <unistd.h> provides [fdatasync] as a macro. *)
Definition macro_unix : platform :=
  Platform (list_to_map [
    ("unistd.h", Header (list_to_map [("fdatasync", EId "fsync")]) {["fsync"]});
    ("fcntl.h", Header ∅ ∅);
    ("endian.h",
     Header (list_to_map [("__LITTLE_ENDIAN", ENum 1234);
                          ("__BIG_ENDIAN", ENum 4321);
                          ("__BYTE_ORDER", EId "__BIG_ENDIAN")]) ∅)]).

(** A target with no system headers at all. *)
Definition freestanding : platform := Platform ∅.

Ltac by_compute := apply (bool_decide_unpack _); by vm_compute.

(** ** Override precedence *)

Lemma guard_event_no_probe f : EvDefined include_guard ∉ probe_events f.
Proof. destruct f; in_list. Qed.

(** C1. For each of the five facts, when its macro is already defined
    (an override), the block of the fact evaluates the test of its first
    line and nothing else, on any platform; over the whole header no
    test and no inclusion of the fact's detection logic is evaluated;
    and the definition the build supplied is the definition at the end
    of the header. *)
Theorem override_precedence (f : fact) (P : platform) (s : pp_state)
    (v : pp_expr) :
  macros s !! fact_macro f = Some v →
  resolve f P s = Ok tt (State (macros s) (decls s)
                               (trace s ++ [EvDefined (fact_macro f)])) ∧
  (∀ s', port_config P s = Ok tt s' →
     ∃ tr, trace s' = trace s ++ tr ∧ Forall (.∉ probe_events f) tr) ∧
  (hygienic P → ∀ s', port_config P s = Ok tt s' →
     macros s' !! fact_macro f = Some v).
Proof.
  intros Hv.
  assert (Hent : macros (enter s) !! fact_macro f = Some v).
  { cbn [enter macros]. rewrite lookup_insert_ne; [done |].
    intros E. by apply (fact_macro_not_guard f). }
  split_and!; [by apply resolve_override | |].
  - intros s'. destruct (macros s !! include_guard) as [g|] eqn:Hg.
    + rewrite port_config_guarded by done. intros [= <-].
      exists [EvDefined include_guard]. split; [done |].
      apply Forall_singleton, guard_event_no_probe.
    + rewrite port_config_fresh by done. intros Hrun.
      destruct (run_blocks_quiet f all_facts P (enter s) s') as (tr & E & F);
        [by rewrite Hent | done |].
      exists (EvDefined include_guard :: tr). split.
      * rewrite E. cbn [enter trace]. by rewrite <- app_assoc.
      * apply Forall_cons. split; [apply guard_event_no_probe | done].
  - intros HP s'. destruct (macros s !! include_guard) as [g|] eqn:Hg.
    + rewrite port_config_guarded by done. by intros [= <-].
    + rewrite port_config_fresh by done. intros Hrun.
      eapply run_blocks_keeps; eauto using fact_macro_config.
Qed.

Lemma override_precedence_witness :
  ∃ s', port_config glibc_linux (cmdline [("HAVE_FULLFSYNC", ENum 1)])
          = Ok tt s' ∧
        macros s' !! "HAVE_FULLFSYNC" = Some (ENum 1).
Proof.
  eexists. split; [by vm_compute |].
  apply (override_precedence HasFullFsync glibc_linux
           (cmdline [("HAVE_FULLFSYNC", ENum 1)]) (ENum 1));
    [by vm_compute | by_compute | by vm_compute].
Defined.

(** ** The capability facts *)

(** The value a capability block leaves when no override was passed,
    lifted to the whole header. *)
Lemma port_config_capability f P s s' :
  hygienic P →
  macros s !! include_guard = None →
  macros s !! fact_macro f = None →
  port_config P s = Ok tt s' →
  ∃ s1 s2,
    run_blocks (before f) P (enter s) = Ok tt s1 ∧
    macros s1 !! fact_macro f = None ∧
    resolve f P s1 = Ok tt s2 ∧
    macros s' !! fact_macro f = macros s2 !! fact_macro f.
Proof.
  intros HP Hg Hf Hrun.
  destruct (port_config_block f P s s' HP Hg Hrun)
    as (s1 & s2 & H1 & H2 & _ & E1 & E2).
  exists s1, s2. by rewrite E1.
Qed.

(** C6. With no override, [HAVE_CRC32C] is defined as [0], on every
    platform and whatever else the table holds: the block tests whether
    the macro is defined and consults nothing else.  It cannot fail, and
    [0] is what the header leaves. *)
Theorem hardware_crc_default (P : platform) (s : pp_state) :
  macros s !! "HAVE_CRC32C" = None →
  (∃ s', check_crc32c P s = Ok tt s' ∧
         trace s' = trace s ++ [EvDefined "HAVE_CRC32C"] ∧
         macros s' !! "HAVE_CRC32C" = Some (ENum 0) ∧
         ∀ k, fact_value (S k) s' HasHardwareCrc = Some 0) ∧
  (hygienic P → macros s !! include_guard = None →
   ∀ s', port_config P s = Ok tt s' →
     macros s' !! "HAVE_CRC32C" = Some (ENum 0) ∧
     ∀ k, fact_value (S k) s' HasHardwareCrc = Some 0).
Proof.
  intros Hs. split.
  - unfold check_crc32c. rewrite default_block_run by done.
    eexists. split_and!; [done | done | ..]; unfold fact_value;
      cbn [macros fact_macro]; by rewrite lookup_insert_eq.
  - intros HP Hg s' Hrun.
    destruct (port_config_capability HasHardwareCrc P s s' HP Hg Hs Hrun)
      as (s1 & s2 & _ & H1 & H2 & E).
    cbn [resolve fact_macro] in *. unfold check_crc32c in H2.
    rewrite default_block_run in H2 by done. injection H2 as <-.
    cbn [macros] in E. rewrite lookup_insert_eq in E.
    unfold fact_value. cbn [fact_macro]. by rewrite E.
Qed.

Lemma hardware_crc_default_witness :
  ∃ s', port_config darwin (cmdline [("OS_MACOSX", ENum 1)]) = Ok tt s' ∧
        macros s' !! "HAVE_CRC32C" = Some (ENum 0).
Proof.
  eexists. split; [by vm_compute |].
  apply (hardware_crc_default darwin (cmdline [("OS_MACOSX", ENum 1)]));
    [by vm_compute | by_compute | by vm_compute | by vm_compute].
Defined.

(** C7. With no override, [HAVE_SNAPPY] is defined as [1], on every
    platform and whatever else the table holds: the block tests whether
    the macro is defined and consults nothing else.  It cannot fail, and
    [1] is what the header leaves. *)
Theorem compression_lib_default (P : platform) (s : pp_state) :
  macros s !! "HAVE_SNAPPY" = None →
  (∃ s', check_snappy P s = Ok tt s' ∧
         trace s' = trace s ++ [EvDefined "HAVE_SNAPPY"] ∧
         macros s' !! "HAVE_SNAPPY" = Some (ENum 1) ∧
         ∀ k, fact_value (S k) s' HasCompressionLib = Some 1) ∧
  (hygienic P → macros s !! include_guard = None →
   ∀ s', port_config P s = Ok tt s' →
     macros s' !! "HAVE_SNAPPY" = Some (ENum 1) ∧
     ∀ k, fact_value (S k) s' HasCompressionLib = Some 1).
Proof.
  intros Hs. split.
  - unfold check_snappy. rewrite default_block_run by done.
    eexists. split_and!; [done | done | ..]; unfold fact_value;
      cbn [macros fact_macro]; by rewrite lookup_insert_eq.
  - intros HP Hg s' Hrun.
    destruct (port_config_capability HasCompressionLib P s s' HP Hg Hs Hrun)
      as (s1 & s2 & _ & H1 & H2 & E).
    cbn [resolve fact_macro] in *. unfold check_snappy in H2.
    rewrite default_block_run in H2 by done. injection H2 as <-.
    cbn [macros] in E. rewrite lookup_insert_eq in E.
    unfold fact_value. cbn [fact_macro]. by rewrite E.
Qed.

Lemma compression_lib_default_witness :
  ∃ s', port_config freebsd_be (cmdline [("OS_FREEBSD", ENum 1)]) = Ok tt s' ∧
        macros s' !! "HAVE_SNAPPY" = Some (ENum 1).
Proof.
  eexists. split; [by vm_compute |].
  apply (compression_lib_default freebsd_be (cmdline [("OS_FREEBSD", ENum 1)]));
    [by vm_compute | by_compute | by vm_compute | by vm_compute].
Defined.

Lemma probe_block_value flag hdr sym P s :
  macros s !! flag = None →
  ∃ s', probe_block flag hdr sym P s = Ok tt s' ∧
    macros s' !! flag =
      Some (ENum (if detects hdr sym P (macros s) then 1 else 0)).
Proof.
  intros Hs. destruct (probe_block_run flag hdr sym P s Hs) as (s' & H & E & _).
  exists s'. split; [done |]. rewrite E, lookup_insert_eq.
  by destruct (detects hdr sym P (macros s)).
Qed.

Lemma detects_true hdr sym P m :
  detects hdr sym P m = true ↔
  ∃ H, headers P !! hdr = Some H ∧ is_Some ((h_macros H ∪ m) !! sym).
Proof.
  unfold detects, with_header, is_defined.
  destruct (headers P !! hdr) as [H|].
  - rewrite bool_decide_true by done. cbn [andb].
    rewrite bool_decide_eq_true. split; [by exists H |].
    by intros (? & [= <-] & ?).
  - rewrite bool_decide_false by (by intros [??]). cbn [andb].
    split; [done | by intros (? & ? & _)].
Qed.

(** What the header leaves for [HAVE_FDATASYNC], the first block. *)
Lemma fdatasync_value_final P s s' :
  hygienic P → macros s !! include_guard = None →
  macros s !! "HAVE_FDATASYNC" = None →
  port_config P s = Ok tt s' →
  macros s' !! "HAVE_FDATASYNC" =
    Some (ENum (if detects "unistd.h" "fdatasync" P (macros s) then 1 else 0)).
Proof.
  intros HP Hg Hr Hrun.
  destruct (port_config_capability HasRangeSync P s s' HP Hg Hr Hrun)
    as (r1 & r2 & Hr1 & Hr2 & Hr3 & Er).
  cbn [before run_blocks foldr] in Hr1.
  rewrite run_ret in Hr1. injection Hr1 as <-.
  cbn [resolve fact_macro] in *. rewrite Er.
  rewrite check_fdatasync_probe in Hr3.
  destruct (probe_block_value _ "unistd.h" "fdatasync" P _ Hr2)
    as (? & E1 & E2). rewrite E1 in Hr3. injection Hr3 as <-.
  rewrite E2.
  rewrite (detects_ext _ _ P (macros (enter s)) (macros s)); [done |].
  cbn [enter macros]. by rewrite lookup_insert_ne.
Qed.

(** C5. With no override, [HAVE_FDATASYNC] is [1] when the probe
    detects [fdatasync] and [0] otherwise, where the probe detects it
    exactly when <unistd.h> is found and, once it is included,
    [fdatasync] is defined -- so it is [0] when <unistd.h> is not found;
    likewise [HAVE_FULLFSYNC] with <fcntl.h> and [F_FULLFSYNC].  Neither
    block can fail, with or without an override, so the header as a
    whole only ever stops in its endianness block.  What the blocks
    define is what the header leaves. *)
Theorem sync_probes (P : platform) (s : pp_state) :
  (macros s !! "HAVE_FDATASYNC" = None →
   ∃ s', check_fdatasync P s = Ok tt s' ∧
     macros s' !! "HAVE_FDATASYNC" =
       Some (ENum (if detects "unistd.h" "fdatasync" P (macros s)
                   then 1 else 0))) ∧
  (macros s !! "HAVE_FULLFSYNC" = None →
   ∃ s', check_fullfsync P s = Ok tt s' ∧
     macros s' !! "HAVE_FULLFSYNC" =
       Some (ENum (if detects "fcntl.h" "F_FULLFSYNC" P (macros s)
                   then 1 else 0))) ∧
  (detects "unistd.h" "fdatasync" P (macros s) = true ↔
   ∃ H, headers P !! "unistd.h" = Some H ∧
        is_Some ((h_macros H ∪ macros s) !! "fdatasync")) ∧
  (detects "fcntl.h" "F_FULLFSYNC" P (macros s) = true ↔
   ∃ H, headers P !! "fcntl.h" = Some H ∧
        is_Some ((h_macros H ∪ macros s) !! "F_FULLFSYNC")) ∧
  (∃ s', check_fdatasync P s = Ok tt s') ∧
  (∃ s', check_fullfsync P s = Ok tt s') ∧
  (∀ e, port_config P s = Fatal e → ∃ s4, check_endianness P s4 = Fatal e) ∧
  (hygienic P → macros s !! include_guard = None →
   macros s !! "HAVE_FDATASYNC" = None →
   macros s !! "HAVE_FULLFSYNC" = None →
   ∀ s', port_config P s = Ok tt s' →
   ∃ s1,
     check_fdatasync P (enter s) = Ok tt s1 ∧
     macros s' !! "HAVE_FDATASYNC" =
       Some (ENum (if detects "unistd.h" "fdatasync" P (macros s)
                   then 1 else 0)) ∧
     macros s' !! "HAVE_FULLFSYNC" =
       Some (ENum (if detects "fcntl.h" "F_FULLFSYNC" P (macros s1)
                   then 1 else 0))).
Proof.
  split_and!.
  - intros Hs. rewrite check_fdatasync_probe. by apply probe_block_value.
  - intros Hs. rewrite check_fullfsync_probe. by apply probe_block_value.
  - apply detects_true.
  - apply detects_true.
  - destruct (resolve_capability HasRangeSync P s) as (s' & H & _); eauto.
  - destruct (resolve_capability HasFullFsync P s) as (s' & H & _); eauto.
  - intros e. destruct (macros s !! include_guard) as [g|] eqn:Hg.
    + by rewrite port_config_guarded.
    + destruct (port_config_endianness P s Hg) as (s4 & _ & ->). eauto.
  - intros HP Hg Hr Hf s' Hrun.
    destruct (port_config_capability HasRangeSync P s s' HP Hg Hr Hrun)
      as (r1 & r2 & Hr1 & Hr2 & Hr3 & Er).
    destruct (port_config_capability HasFullFsync P s s' HP Hg Hf Hrun)
      as (f1 & f2 & Hf1 & Hf2 & Hf3 & Ef).
    cbn [before] in Hr1, Hf1. cbn [run_blocks foldr] in Hr1.
    rewrite run_ret in Hr1. injection Hr1 as <-.
    rewrite run_blocks_single in Hf1. cbn [resolve fact_macro] in *.
    exists f1. split; [done |]. split; [by apply fdatasync_value_final |].
    rewrite Ef. rewrite check_fullfsync_probe in Hf3.
    destruct (probe_block_value _ "fcntl.h" "F_FULLFSYNC" P _ Hf2)
      as (? & E1 & E2). rewrite E1 in Hf3. by injection Hf3 as <-.
Qed.

Lemma sync_probes_witness :
  let s := cmdline [] in
  (∃ s', check_fdatasync macro_unix s = Ok tt s' ∧
         macros s' !! "HAVE_FDATASYNC" = Some (ENum 1)) ∧
  (∃ s', check_fullfsync darwin s = Ok tt s' ∧
         macros s' !! "HAVE_FULLFSYNC" = Some (ENum 1)) ∧
  (∃ s', check_fdatasync freestanding s = Ok tt s' ∧
         macros s' !! "HAVE_FDATASYNC" = Some (ENum 0)).
Proof.
  split_and!.
  - apply (sync_probes macro_unix (cmdline [])). by vm_compute.
  - apply (sync_probes darwin (cmdline [])). by vm_compute.
  - apply (sync_probes freestanding (cmdline [])). by vm_compute.
Defined.

(** C10. With no override and <unistd.h> found, [HAVE_FDATASYNC] is
    [1] exactly when [fdatasync] names a macro in the table that the
    inclusion of <unistd.h> leaves, and [0] exactly when it does not.
    A header that only declares the function [fdatasync] makes the
    function visible and still yields [0].  The same holds of the value
    the whole header leaves. *)
Theorem fdatasync_probe_tests_macro (P : platform) (s : pp_state)
    (H : header) :
  macros s !! "HAVE_FDATASYNC" = None →
  headers P !! "unistd.h" = Some H →
  (∃ s',
     check_fdatasync P s = Ok tt s' ∧
     (macros s' !! "HAVE_FDATASYNC" = Some (ENum 1) ↔
        is_Some ((h_macros H ∪ macros s) !! "fdatasync")) ∧
     (macros s' !! "HAVE_FDATASYNC" = Some (ENum 0) ↔
        (h_macros H ∪ macros s) !! "fdatasync" = None) ∧
     ("fdatasync" ∈ h_decls H → h_macros H !! "fdatasync" = None →
      macros s !! "fdatasync" = None →
        macros s' !! "HAVE_FDATASYNC" = Some (ENum 0) ∧
        "fdatasync" ∈ decls s')) ∧
  (hygienic P → macros s !! include_guard = None →
   ∀ s', port_config P s = Ok tt s' →
     (macros s' !! "HAVE_FDATASYNC" = Some (ENum 1) ↔
        is_Some ((h_macros H ∪ macros s) !! "fdatasync")) ∧
     (macros s' !! "HAVE_FDATASYNC" = Some (ENum 0) ↔
        (h_macros H ∪ macros s) !! "fdatasync" = None)).
Proof.
  intros Hs HH.
  assert (Hd : ∀ m, detects "unistd.h" "fdatasync" P m =
                    bool_decide (is_Some ((h_macros H ∪ m) !! "fdatasync"))).
  { intros m. unfold detects, with_header, is_defined. rewrite HH.
    by rewrite bool_decide_true by done. }
  assert (Hval : ∀ o : option pp_expr,
    o = Some (ENum (if detects "unistd.h" "fdatasync" P (macros s)
                    then 1 else 0)) →
    (o = Some (ENum 1) ↔ is_Some ((h_macros H ∪ macros s) !! "fdatasync")) ∧
    (o = Some (ENum 0) ↔ (h_macros H ∪ macros s) !! "fdatasync" = None)).
  { intros o ->. rewrite Hd. case_bool_decide as Hc.
    - split; split; try done. intros E. rewrite E in Hc. by destruct Hc.
    - split; split; try done. intros _.
      by apply eq_None_not_Some. }
  split.
  - rewrite check_fdatasync_probe.
    destruct (probe_block_run _ "unistd.h" "fdatasync" P s Hs)
      as (s' & Hrun & Em & Ed).
    destruct (probe_block_value _ "unistd.h" "fdatasync" P s Hs)
      as (s'' & Hrun' & Ev).
    rewrite Hrun in Hrun'. injection Hrun' as <-.
    exists s'. split; [done |].
    destruct (Hval _ Ev) as [H1 H0]. split_and!; [done | done |].
    intros Hdecl Hm Hms. split.
    + apply H0. by rewrite lookup_union_r.
    + rewrite Ed, HH. by apply elem_of_union_l.
  - intros HP Hg s' Hrun.
    apply Hval. by apply fdatasync_value_final.
Qed.

Lemma fdatasync_probe_tests_macro_witness :
  ∃ s', check_fdatasync glibc_linux (cmdline []) = Ok tt s' ∧
        macros s' !! "HAVE_FDATASYNC" = Some (ENum 0) ∧
        "fdatasync" ∈ decls s'.
Proof.
  destruct (fdatasync_probe_tests_macro glibc_linux (cmdline [])
              (Header ∅ {["fdatasync"]}))
    as [(s' & Hrun & _ & _ & Hdecl) _]; [by vm_compute | by vm_compute |].
  exists s'. split; [exact Hrun |].
  apply Hdecl; by vm_compute.
Defined.

(** ** Endianness *)

Lemma matched_rule_ext m m' :
  (∀ x, x ∈ os_names → m !! x = m' !! x) →
  matched_rule m = matched_rule m'.
Proof.
  intros E. unfold matched_rule, is_defined.
  rewrite !E; [done | unfold os_names; repeat constructor ..].
Qed.

Lemma os_name_config x : x ∈ os_names → x ∈ config_names.
Proof.
  intros Hx. unfold config_names. apply elem_of_cons. right.
  apply elem_of_app. by right.
Qed.

Lemma os_name_not_fact x (fs : list fact) :
  x ∈ os_names → x ∉ fact_macro <$> fs.
Proof.
  intros Hx (f & -> & _)%list_elem_of_fmap.
  destruct f; cbn [fact_macro] in Hx; unfold os_names in Hx; not_in_list Hx.
Qed.

(** The endianness block, run to its end: it stops at the first header
    of the matched arm that the platform lacks, and otherwise leaves the
    table of that arm. *)
Lemma check_endianness_run P s :
  macros s !! "LEVELDB_IS_BIG_ENDIAN" = None →
  let r := matched_rule (macros s) in
  match first_missing P (rule_headers r) with
  | Some h => check_endianness P s = Fatal (MissingHeader h)
  | None => ∃ s', check_endianness P s = Ok tt s' ∧
                  macros s' = arm_table r P (macros s)
  end.
Proof.
  intros Hs r. destruct (check_endianness_dispatch P s Hs) as (tr & ->).
  fold r. exact (arm_run r P (State (macros s) (decls s) tr)).
Qed.

(** The same for the whole header, whose earlier blocks leave the
    platform macros and the override as the build passed them. *)
Lemma port_config_run P s :
  hygienic P →
  macros s !! include_guard = None →
  macros s !! "LEVELDB_IS_BIG_ENDIAN" = None →
  let r := matched_rule (macros s) in
  ∃ s4,
    run_blocks (before IsBigEndian) P (enter s) = Ok tt s4 ∧
    match first_missing P (rule_headers r) with
    | Some h => port_config P s = Fatal (MissingHeader h)
    | None => ∃ s', port_config P s = Ok tt s' ∧
                    macros s' = arm_table r P (macros s4)
    end.
Proof.
  intros HP Hg Hs r.
  destruct (port_config_endianness P s Hg) as (s4 & H4 & ->).
  exists s4. split; [done |].
  assert (Hframe : ∀ x, x ∈ config_names →
            x ∉ fact_macro <$> before IsBigEndian → x ≠ include_guard →
            macros s4 !! x = macros s !! x).
  { intros x Hx Hnf Hng.
    rewrite (frames_run_blocks x _ Hx Hnf P _ _ _ HP H4).
    cbn [enter macros]. by rewrite lookup_insert_ne. }
  assert (Hr : matched_rule (macros s4) = r).
  { apply matched_rule_ext. intros x Hx.
    apply Hframe; [by apply os_name_config | by apply os_name_not_fact |].
    intros ->. unfold os_names, include_guard in Hx. not_in_list Hx. }
  assert (Hs4 : macros s4 !! "LEVELDB_IS_BIG_ENDIAN" = None).
  { rewrite <- Hs.
    apply (Hframe _ (fact_macro_config IsBigEndian)
             (fact_macro_not_before IsBigEndian)).
    apply (fact_macro_not_guard IsBigEndian). }
  pose proof (check_endianness_run P s4 Hs4) as Hrun.
  cbn zeta in Hrun. by rewrite Hr in Hrun.
Qed.

Lemma first_missing_None P hs :
  first_missing P hs = None ↔ ∀ h, h ∈ hs → is_Some (headers P !! h).
Proof.
  unfold first_missing. induction hs as [|h hs IH]; cbn [List.find].
  - split; [| done]. intros _ h Hh. by apply elem_of_nil in Hh.
  - case_bool_decide as Hh.
    + split; [done |]. intros Hall.
      destruct (Hall h) as [H HH]; [by left | congruence].
    + rewrite IH. split.
      * intros Hall h' [-> | Hin]%elem_of_cons; [| by apply Hall].
        by apply not_eq_None_Some.
      * intros Hall h' Hin. apply Hall. by right.
Qed.

Lemma first_missing_Some P hs h :
  first_missing P hs = Some h → h ∈ hs ∧ headers P !! h = None.
Proof.
  unfold first_missing. intros Hf. apply find_some in Hf as [Hin Hb].
  split; [by apply list_elem_of_In | by apply bool_decide_eq_true in Hb].
Qed.

(** No platform macro is defined: the target is none of those the
    header names. *)
Definition unrecognized (m : gmap string pp_expr) : Prop :=
  Forall (λ x, m !! x = None) os_names.

Lemma unrecognized_generic m : unrecognized m → matched_rule m = Generic.
Proof.
  intros Hm. rewrite (matched_rule_ext m ∅); [done |].
  intros x Hx. rewrite lookup_empty.
  unfold unrecognized in Hm. rewrite Forall_forall in Hm. by apply Hm.
Qed.

Definition byte_order_generic : pp_expr :=
  EEq (EId "__BYTE_ORDER") (EId "__BIG_ENDIAN").

Definition byte_order_bsd : pp_expr :=
  EEq (EId "_BYTE_ORDER") (EId "_BIG_ENDIAN").

(** C2, as the header has it.  On a target that defines none of the
    platform macros, with no override, the [#else] arm is taken: it
    includes <endian.h> and defines [LEVELDB_IS_BIG_ENDIAN] as
    [(__BYTE_ORDER == __BIG_ENDIAN)].  Resolution stops only when
    <endian.h> is not found, and then on that inclusion. *)
Theorem unrecognized_platform_uses_generic_rule (P : platform)
    (s : pp_state) :
  unrecognized (macros s) →
  macros s !! "LEVELDB_IS_BIG_ENDIAN" = None →
  match headers P !! "endian.h" with
  | Some H =>
      (∃ s', check_endianness P s = Ok tt s' ∧
             macros s' = <["LEVELDB_IS_BIG_ENDIAN" := byte_order_generic]>
                           (h_macros H ∪ macros s)) ∧
      (hygienic P → macros s !! include_guard = None →
       ∃ s', port_config P s = Ok tt s' ∧
             macros s' !! "LEVELDB_IS_BIG_ENDIAN" = Some byte_order_generic)
  | None =>
      check_endianness P s = Fatal (MissingHeader "endian.h") ∧
      (hygienic P → macros s !! include_guard = None →
       port_config P s = Fatal (MissingHeader "endian.h"))
  end.
Proof.
  intros Hu Hs.
  pose proof (check_endianness_run P s Hs) as Hb.
  pose proof (λ HP Hg, port_config_run P s HP Hg Hs) as Hw.
  cbn zeta in Hb, Hw. rewrite (unrecognized_generic _ Hu) in Hb, Hw.
  unfold first_missing, arm_table, with_header in Hb, Hw.
  cbn [rule_headers List.find foldl arm_definition] in Hb, Hw.
  destruct (headers P !! "endian.h") as [H|] eqn:HH.
  - rewrite bool_decide_false in Hb, Hw by done. split; [exact Hb |].
    intros HP Hg. destruct (Hw HP Hg) as (s4 & _ & s' & Hrun & E).
    exists s'. split; [done |]. by rewrite E, lookup_insert_eq.
  - rewrite bool_decide_true in Hb, Hw by done. split; [exact Hb |].
    intros HP Hg. by destruct (Hw HP Hg) as (s4 & _ & Hrun).
Qed.

Lemma unrecognized_platform_uses_generic_rule_witness :
  port_config freestanding (cmdline []) = Fatal (MissingHeader "endian.h") ∧
  ∃ s', port_config macro_unix (cmdline []) = Ok tt s' ∧
        macros s' !! "LEVELDB_IS_BIG_ENDIAN" = Some byte_order_generic.
Proof.
  split.
  - apply (unrecognized_platform_uses_generic_rule freestanding (cmdline []));
      [by_compute | by vm_compute | by_compute | by vm_compute].
  - apply (unrecognized_platform_uses_generic_rule macro_unix (cmdline []));
      [by_compute | by vm_compute | by_compute | by vm_compute].
Defined.

(** C2 as stated fails: glibc Linux defines none of the platform
    macros, and with no override the header resolves, to little-endian. *)
Lemma unrecognized_platform_resolves :
  unrecognized (macros (cmdline [])) ∧
  macros (cmdline []) !! "LEVELDB_IS_BIG_ENDIAN" = None ∧
  ∃ s', port_config glibc_linux (cmdline []) = Ok tt s' ∧
        macros s' !! "LEVELDB_IS_BIG_ENDIAN" = Some byte_order_generic ∧
        fact_value 4 s' IsBigEndian = Some 0.
Proof.
  split; [by_compute |]. split; [by vm_compute |].
  eexists. split; [by vm_compute |]. split; by vm_compute.
Qed.

(** The comparison an arm defines without looking at any symbol. *)
Definition unconditional_comparison (r : rule) : option pp_expr :=
  match r with
  | Bsd | Android => Some byte_order_bsd
  | Generic => Some byte_order_generic
  | Apple | Solaris | Hpux => None
  end.

Definition byte_order_darwin : pp_expr :=
  EEq (EId "__DARWIN_BYTE_ORDER") (EId "__DARWIN_BIG_ENDIAN").






Definition bsd_names : list string :=
  ["OS_FREEBSD"; "OS_OPENBSD"; "OS_NETBSD"; "OS_DRAGONFLYBSD"].

Lemma bsd_matched m x :
  x ∈ bsd_names → is_Some (m !! x) →
  m !! "OS_MACOSX" = None → m !! "OS_IOS" = None → m !! "OS_SOLARIS" = None →
  matched_rule m = Bsd.
Proof.
  intros Hx Hd Hm Hi Hs. unfold matched_rule, is_defined.
  rewrite Hm, Hi, Hs.
  rewrite !(bool_decide_false (is_Some None)) by (by intros [??]).
  cbn [orb].
  unfold bsd_names in Hx.
  repeat (apply elem_of_cons in Hx as [-> | Hx];
          [rewrite (bool_decide_true _ Hd); by rewrite ?orb_true_r |]).
  by apply elem_of_nil in Hx.
Qed.

(** The value of a comparison of two symbols, where both have one. *)
Lemma fact_value_comparison s lhs rhs k a b :
  macros s !! "LEVELDB_IS_BIG_ENDIAN" = Some (EEq (EId lhs) (EId rhs)) →
  eval k (macros s) (EId lhs) = Some a →
  eval k (macros s) (EId rhs) = Some b →
  fact_value (S k) s IsBigEndian = Some (Z.b2z (a =? b)).
Proof.
  intros Hm Ha Hb. unfold fact_value. cbn [fact_macro]. rewrite Hm.
  cbn [mbind option_bind eval]. by rewrite Ha, Hb.
Qed.

(** C8. On FreeBSD, OpenBSD, NetBSD and DragonFly BSD (the platform
    macro of one of them is defined, none of the Apple and Solaris ones
    is), with no override and the two headers of the arm found,
    [LEVELDB_IS_BIG_ENDIAN] is defined as [(_BYTE_ORDER == _BIG_ENDIAN)]
    over the table those headers leave.  Its value is the comparison of
    the values of the two symbols: 1 (true) when they are equal, 0 when
    they differ. *)
Theorem bsd_byte_order_comparison (P : platform) (s : pp_state)
    (x : string) (H1 H2 : header) :
  x ∈ bsd_names → is_Some (macros s !! x) →
  macros s !! "OS_MACOSX" = None →
  macros s !! "OS_IOS" = None →
  macros s !! "OS_SOLARIS" = None →
  macros s !! "LEVELDB_IS_BIG_ENDIAN" = None →
  headers P !! "sys/types.h" = Some H1 →
  headers P !! "sys/endian.h" = Some H2 →
  (∃ s', check_endianness P s = Ok tt s' ∧
     macros s' = <["LEVELDB_IS_BIG_ENDIAN" := byte_order_bsd]>
                   (h_macros H2 ∪ (h_macros H1 ∪ macros s)) ∧
     ∀ k a b,
       eval k (macros s') (EId "_BYTE_ORDER") = Some a →
       eval k (macros s') (EId "_BIG_ENDIAN") = Some b →
       fact_value (S k) s' IsBigEndian = Some (Z.b2z (a =? b)) ∧
       (a = b → fact_value (S k) s' IsBigEndian = Some 1)) ∧
  (hygienic P → macros s !! include_guard = None →
   ∃ s', port_config P s = Ok tt s' ∧
     macros s' !! "LEVELDB_IS_BIG_ENDIAN" = Some byte_order_bsd ∧
     ∀ k a b,
       eval k (macros s') (EId "_BYTE_ORDER") = Some a →
       eval k (macros s') (EId "_BIG_ENDIAN") = Some b →
       fact_value (S k) s' IsBigEndian = Some (Z.b2z (a =? b)) ∧
       (a = b → fact_value (S k) s' IsBigEndian = Some 1)).
Proof.
  intros Hx Hd Hm Hi Hsol Hs HH1 HH2.
  pose proof (bsd_matched _ _ Hx Hd Hm Hi Hsol) as Hr.
  assert (Hcmp : ∀ s', macros s' !! "LEVELDB_IS_BIG_ENDIAN" = Some byte_order_bsd →
    ∀ k a b,
       eval k (macros s') (EId "_BYTE_ORDER") = Some a →
       eval k (macros s') (EId "_BIG_ENDIAN") = Some b →
       fact_value (S k) s' IsBigEndian = Some (Z.b2z (a =? b)) ∧
       (a = b → fact_value (S k) s' IsBigEndian = Some 1)).
  { intros s' Hdef k a b Ha Hb.
    rewrite (fact_value_comparison s' _ _ k a b Hdef Ha Hb).
    split; [done |]. intros ->. by rewrite Z.eqb_refl. }
  pose proof (check_endianness_run P s Hs) as Hb.
  pose proof (λ HP Hg, port_config_run P s HP Hg Hs) as Hw.
  cbn zeta in Hb, Hw. rewrite Hr in Hb, Hw.
  unfold first_missing, arm_table, with_header in Hb, Hw.
  cbn [rule_headers List.find foldl arm_definition] in Hb, Hw.
  rewrite HH1, HH2 in Hb, Hw.
  rewrite !bool_decide_false in Hb, Hw by done.
  split.
  - destruct Hb as (s' & Hrun & E). exists s'. split_and!; [done | done |].
    apply Hcmp. by rewrite E, lookup_insert_eq.
  - intros HP Hg. destruct (Hw HP Hg) as (s4 & _ & s' & Hrun & E).
    assert (macros s' !! "LEVELDB_IS_BIG_ENDIAN" = Some byte_order_bsd)
      by (by rewrite E, lookup_insert_eq).
    exists s'. split_and!; [done | done |]. by apply Hcmp.
Qed.

Lemma bsd_byte_order_comparison_witness :
  ∃ s', port_config freebsd_be (cmdline [("OS_FREEBSD", ENum 1)]) = Ok tt s' ∧
        fact_value 4 s' IsBigEndian = Some 1.
Proof.
  destruct (bsd_byte_order_comparison freebsd_be
              (cmdline [("OS_FREEBSD", ENum 1)]) "OS_FREEBSD"
              (Header ∅ ∅)
              (Header (list_to_map [("_LITTLE_ENDIAN", ENum 1234);
                                    ("_BIG_ENDIAN", ENum 4321);
                                    ("_BYTE_ORDER", EId "_BIG_ENDIAN")]) ∅))
    as [_ Hw]; [by left | eexists; by vm_compute | by vm_compute ..|].
  destruct Hw as (s' & Hrun & Hdef & Hval); [by_compute | by vm_compute |].
  exists s'. split; [exact Hrun |].
  vm_compute in Hrun. injection Hrun as <-.
  refine (proj2 (Hval 3%nat 4321 4321 _ _) eq_refl); by vm_compute.
Defined.

(** ** Facts left unset *)

(** The four capability macros are defined whenever the header is
    processed to its end. *)
Lemma capabilities_resolved P s s' f :
  macros s !! include_guard = None →
  port_config P s = Ok tt s' →
  f ≠ IsBigEndian →
  is_Some (macros s' !! fact_macro f).
Proof.
  intros Hg. rewrite port_config_fresh, (all_facts_split f) by done.
  intros (s1 & _ & (s2 & H2 & H3)%run_blocks_cons)%run_blocks_app Hf.
  destruct (resolve_capability f P s1 Hf) as (s2' & E & Hdef).
  rewrite E in H2. injection H2 as <-.
  by eapply grows_run_blocks.
Qed.

(** The endianness block ends with its macro undefined only in the
    Apple arm. *)
Lemma endianness_unset_only_apple P s s' :
  macros s !! "LEVELDB_IS_BIG_ENDIAN" = None →
  check_endianness P s = Ok tt s' →
  macros s' !! "LEVELDB_IS_BIG_ENDIAN" = None →
  matched_rule (macros s) = Apple.
Proof.
  intros Hs Hrun Hnone.
  pose proof (check_endianness_run P s Hs) as Hb. cbn zeta in Hb.
  destruct (first_missing P _); [congruence |].
  destruct Hb as (s'' & E & Em). rewrite E in Hrun. injection Hrun as <-.
  rewrite Em in Hnone. unfold arm_table in Hnone.
  destruct (matched_rule (macros s)); [done | ..];
    cbn [arm_definition] in Hnone; by rewrite lookup_insert_eq in Hnone.
Qed.


(** ** Each block reads its own inputs only *)

(** The names whose definedness the detection logic of a fact tests. *)
Definition probe_names (f : fact) : list string :=
  match f with
  | HasRangeSync => ["fdatasync"]
  | HasFullFsync => ["F_FULLFSYNC"]
  | HasHardwareCrc => []
  | HasCompressionLib => []
  | IsBigEndian =>
      os_names ++ ["__DARWIN_BIG_ENDIAN"; "__DARWIN_BYTE_ORDER"; "_BIG_ENDIAN"]
  end.

(** Two tables agree on a list of names when they define the same ones
    of them. *)
Definition agree_on (xs : list string) (m m' : gmap string pp_expr) : Prop :=
  Forall (λ x, is_defined m x = is_defined m' x) xs.

(** Two runs of the block of [f] end alike: on the same error, or both
    normally with the same definition, or none, of the macro of [f]. *)
Definition same_outcome (f : fact) (r r' : result unit) : Prop :=
  match r, r' with
  | Ok _ s, Ok _ s' => macros s !! fact_macro f = macros s' !! fact_macro f
  | Fatal e, Fatal e' => e = e'
  | _, _ => False
  end.

Lemma agree_on_elem xs m m' x :
  agree_on xs m m' → x ∈ xs → is_defined m x = is_defined m' x.
Proof. unfold agree_on. rewrite Forall_forall. auto. Qed.

Lemma is_defined_union (H m : gmap string pp_expr) x :
  is_defined (H ∪ m) x = is_defined H x || is_defined m x.
Proof.
  unfold is_defined. rewrite lookup_union.
  destruct (H !! x), (m !! x); cbn;
    rewrite ?bool_decide_true by done;
    rewrite ?(bool_decide_false (is_Some None)) by (by intros [??]); done.
Qed.

Lemma with_header_defined P m m' h x :
  is_defined m x = is_defined m' x →
  is_defined (with_header P m h) x = is_defined (with_header P m' h) x.
Proof.
  intros E. unfold with_header. destruct (headers P !! h); [| done].
  by rewrite !is_defined_union, E.
Qed.

Lemma with_header_lookup P m m' h x :
  m !! x = m' !! x → with_header P m h !! x = with_header P m' h !! x.
Proof.
  intros E. unfold with_header. destruct (headers P !! h); [| done].
  by rewrite !lookup_union, E.
Qed.

Lemma with_headers_defined P hs m m' x :
  is_defined m x = is_defined m' x →
  is_defined (foldl (with_header P) m hs) x =
  is_defined (foldl (with_header P) m' hs) x.
Proof.
  revert m m'. induction hs as [|h hs IH]; intros m m' E; [done |].
  cbn [foldl]. by apply IH, with_header_defined.
Qed.

Lemma with_headers_lookup P hs m m' x :
  m !! x = m' !! x →
  foldl (with_header P) m hs !! x = foldl (with_header P) m' hs !! x.
Proof.
  revert m m'. induction hs as [|h hs IH]; intros m m' E; [done |].
  cbn [foldl]. by apply IH, with_header_lookup.
Qed.

Lemma detects_agree hdr sym P m m' :
  is_defined m sym = is_defined m' sym →
  detects hdr sym P m = detects hdr sym P m'.
Proof. intros E. unfold detects. by rewrite (with_header_defined P m m'). Qed.

Lemma matched_rule_agree m m' :
  agree_on os_names m m' → matched_rule m = matched_rule m'.
Proof.
  intros E. unfold matched_rule.
  rewrite !(agree_on_elem _ _ _ _ E); [done | unfold os_names; repeat constructor ..].
Qed.

Lemma arm_definition_agree r m m' :
  agree_on ["__DARWIN_BIG_ENDIAN"; "__DARWIN_BYTE_ORDER"; "_BIG_ENDIAN"] m m' →
  arm_definition r m = arm_definition r m'.
Proof.
  intros E. destruct r; cbn [arm_definition]; try done;
    rewrite !(agree_on_elem _ _ _ _ E); first [done | repeat constructor].
Qed.

Lemma arm_table_agree r P m m' :
  m !! "LEVELDB_IS_BIG_ENDIAN" = m' !! "LEVELDB_IS_BIG_ENDIAN" →
  agree_on ["__DARWIN_BIG_ENDIAN"; "__DARWIN_BYTE_ORDER"; "_BIG_ENDIAN"] m m' →
  arm_table r P m !! "LEVELDB_IS_BIG_ENDIAN" =
  arm_table r P m' !! "LEVELDB_IS_BIG_ENDIAN".
Proof.
  intros El E. unfold arm_table.
  rewrite (arm_definition_agree r (foldl (with_header P) m (rule_headers r))
             (foldl (with_header P) m' (rule_headers r))).
  - destruct (arm_definition r _).
    + by rewrite !lookup_insert_eq.
    + by apply with_headers_lookup.
  - unfold agree_on in *. eapply Forall_impl; [exact E |].
    intros x Hx. by apply with_headers_defined.
Qed.

(** The outcome of a block for its fact is a function of the platform's
    headers, of the override of that fact and of which of the fact's own
    probe names are defined: nothing else in the table matters. *)
Lemma resolve_own_inputs f P s t :
  macros s !! fact_macro f = macros t !! fact_macro f →
  agree_on (probe_names f) (macros s) (macros t) →
  same_outcome f (resolve f P s) (resolve f P t).
Proof.
  intros Eo Ep. destruct (macros s !! fact_macro f) as [v|] eqn:Hs.
  { rewrite !resolve_override by (by rewrite <- ?Eo, ?Hs).
    cbn [same_outcome]. by rewrite !macros_log, <- Eo, Hs. }
  symmetry in Eo.
  destruct f; cbn [resolve fact_macro probe_names] in *.
  - rewrite check_fdatasync_probe.
    destruct (probe_block_value _ "unistd.h" "fdatasync" P s Hs) as (s' & Rs & Vs).
    destruct (probe_block_value _ "unistd.h" "fdatasync" P t Eo) as (t' & Rt & Vt).
    rewrite Rs, Rt. cbn [same_outcome fact_macro]. rewrite Vs, Vt.
    rewrite (detects_agree _ _ P (macros s) (macros t)); [done |].
    apply (agree_on_elem _ _ _ _ Ep). by left.
  - rewrite check_fullfsync_probe.
    destruct (probe_block_value _ "fcntl.h" "F_FULLFSYNC" P s Hs) as (s' & Rs & Vs).
    destruct (probe_block_value _ "fcntl.h" "F_FULLFSYNC" P t Eo) as (t' & Rt & Vt).
    rewrite Rs, Rt. cbn [same_outcome fact_macro]. rewrite Vs, Vt.
    rewrite (detects_agree _ _ P (macros s) (macros t)); [done |].
    apply (agree_on_elem _ _ _ _ Ep). by left.
  - unfold check_crc32c. rewrite !default_block_run by done.
    cbn [same_outcome fact_macro macros]. by rewrite !lookup_insert_eq.
  - unfold check_snappy. rewrite !default_block_run by done.
    cbn [same_outcome fact_macro macros]. by rewrite !lookup_insert_eq.
  - apply Forall_app in Ep as [Eos Esym].
    pose proof (check_endianness_run P s Hs) as Hrs.
    pose proof (check_endianness_run P t Eo) as Hrt.
    cbn zeta in Hrs, Hrt.
    rewrite <- (matched_rule_agree _ _ Eos) in Hrt.
    destruct (first_missing P _) as [h|].
    + by rewrite Hrs, Hrt.
    + destruct Hrs as (s' & Rs & Vs). destruct Hrt as (t' & Rt & Vt).
      rewrite Rs, Rt. cbn [same_outcome fact_macro]. rewrite Vs, Vt.
      apply arm_table_agree; [by rewrite Hs, Eo | done].
Qed.

(** ** Idempotence, and the macro table the blocks share *)

(** Each of the two sync symbols comes from its own header. *)
Definition probes_separate (P : platform) : Prop :=
  (∀ H, headers P !! "unistd.h" = Some H → h_macros H !! "F_FULLFSYNC" = None) ∧
  (∀ H, headers P !! "fcntl.h" = Some H → h_macros H !! "fdatasync" = None).

(** What a sync block resolves, as a function of the override and of
    the probe's answer. *)
Definition sync_value (override : option pp_expr) (detected : bool) : pp_expr :=
  match override with
  | Some v => v
  | None => ENum (if detected then 1 else 0)
  end.

Lemma probe_block_result flag hdr sym P s :
  ∃ s', probe_block flag hdr sym P s = Ok tt s' ∧
    macros s' !! flag =
      Some (sync_value (macros s !! flag) (detects hdr sym P (macros s))) ∧
    ∀ x, x ≠ flag →
      (∀ H, headers P !! hdr = Some H → h_macros H !! x = None) →
      macros s' !! x = macros s !! x.
Proof.
  destruct (macros s !! flag) as [v|] eqn:Hs.
  - exists (log (EvDefined flag) s). split_and!; [| done | done].
    unfold probe_block.
    by rewrite run_when, run_not, run_defined, bool_decide_true.
  - destruct (probe_block_run flag hdr sym P s Hs) as (s' & Hrun & E & _).
    exists s'. split_and!; [done | |].
    + rewrite E, lookup_insert_eq. done.
    + intros x Hne Hh. rewrite E, lookup_insert_ne by done.
      unfold with_header. destruct (headers P !! hdr) as [H|] eqn:HH; [| done].
      apply lookup_union_r. by apply Hh.
Qed.

Lemma hygienic_fact P h H f :
  hygienic P → headers P !! h = Some H → h_macros H !! fact_macro f = None.
Proof. intros HP Hh. eapply hygienic_lookup; eauto using fact_macro_config. Qed.

(** A header of the platform defines [x] as a macro. *)
Definition provides (P : platform) (h x : string) : bool :=
  match headers P !! h with
  | Some H => is_defined (h_macros H) x
  | None => false
  end.

(** The block of [flag1], processed first, changes what the probe of
    [flag2] answers.  Neither fact has an override, so both blocks
    include their header; the header [hdr1] of the first defines the
    symbol [sym2] that the second tests; and the second probe, in the
    table [m] alone, finds [hdr2] but no [sym2]. *)
Definition crosses (flag1 hdr1 flag2 hdr2 sym2 : string) (P : platform)
    (m : gmap string pp_expr) : bool :=
  negb (is_defined m flag1) && negb (is_defined m flag2) &&
  provides P hdr1 sym2 &&
  bool_decide (is_Some (headers P !! hdr2)) &&
  negb (detects hdr2 sym2 P m).

(** A system whose <unistd.h> brings [F_FULLFSYNC] along, while its
    <fcntl.h> does not define it. *)
Definition overlap : platform :=
  Platform (list_to_map [
    ("unistd.h", Header (list_to_map [("F_FULLFSYNC", ENum 51)]) {["fdatasync"]});
    ("fcntl.h", Header (list_to_map [("O_RDONLY", ENum 0)]) ∅);
    ("endian.h",
     Header (list_to_map [("__LITTLE_ENDIAN", ENum 1234);
                          ("__BIG_ENDIAN", ENum 4321);
                          ("__BYTE_ORDER", EId "__LITTLE_ENDIAN")]) ∅)]).

Lemma with_header_provides P m h x :
  is_defined (with_header P m h) x = provides P h x || is_defined m x.
Proof.
  unfold with_header, provides.
  destruct (headers P !! h); [apply is_defined_union | done].
Qed.

(** The probe of [sym] in [hdr], asked after [hdr1] has been included. *)
Lemma detects_after hdr1 hdr sym P m :
  detects hdr sym P (with_header P m hdr1) =
  detects hdr sym P m ||
  (provides P hdr1 sym && bool_decide (is_Some (headers P !! hdr))).
Proof.
  unfold detects. rewrite !with_header_provides.
  destruct (bool_decide _), (provides P hdr sym), (provides P hdr1 sym),
    (is_defined m sym); done.
Qed.

Lemma crosses_ext flag1 hdr1 flag2 hdr2 sym2 P m m' :
  m !! flag1 = m' !! flag1 → m !! flag2 = m' !! flag2 →
  m !! sym2 = m' !! sym2 →
  crosses flag1 hdr1 flag2 hdr2 sym2 P m =
  crosses flag1 hdr1 flag2 hdr2 sym2 P m'.
Proof.
  intros E1 E2 E3. unfold crosses, is_defined.
  by rewrite E1, E2, (detects_ext hdr2 sym2 P m m').
Qed.

(** Where the first block changes the answer of the second probe, the
    second fact on its own resolves to 0. *)
Lemma crosses_own_value flag1 hdr1 flag2 hdr2 sym2 P m :
  crosses flag1 hdr1 flag2 hdr2 sym2 P m = true →
  sync_value (m !! flag2) (detects hdr2 sym2 P m) = ENum 0.
Proof.
  unfold crosses, is_defined. intros H.
  repeat (apply andb_prop in H as [H ?]).
  destruct (m !! flag2) as [v|].
  - rewrite (bool_decide_true (is_Some (Some v))) in * by done. done.
  - by destruct (detects hdr2 sym2 P m).
Qed.

Lemma probes_separate_crosses P m :
  probes_separate P →
  crosses "HAVE_FDATASYNC" "unistd.h" "HAVE_FULLFSYNC" "fcntl.h"
          "F_FULLFSYNC" P m = false ∧
  crosses "HAVE_FULLFSYNC" "fcntl.h" "HAVE_FDATASYNC" "unistd.h"
          "fdatasync" P m = false.
Proof.
  intros [H1 H2]. unfold crosses, provides, is_defined. split.
  - destruct (headers P !! "unistd.h") as [H|] eqn:HH.
    + rewrite (H1 H) by done.
      rewrite (bool_decide_false (is_Some None)) by (by intros [??]).
      by rewrite !andb_false_r.
    + by rewrite !andb_false_r.
  - destruct (headers P !! "fcntl.h") as [H|] eqn:HH.
    + rewrite (H2 H) by done.
      rewrite (bool_decide_false (is_Some None)) by (by intros [??]).
      by rewrite !andb_false_r.
    + by rewrite !andb_false_r.
Qed.

(** Two sync blocks, one after the other, in one macro table: the first
    resolves its own value; the second resolves its own value too,
    unless the first block [crosses] its probe, and then it resolves
    to 1. *)
Lemma sync_blocks_in_order flag1 hdr1 sym1 flag2 hdr2 sym2 P s :
  flag1 ≠ flag2 → sym2 ≠ flag1 →
  (∀ H, headers P !! hdr1 = Some H → h_macros H !! flag2 = None) →
  (∀ H, headers P !! hdr2 = Some H → h_macros H !! flag1 = None) →
  ∃ s', (probe_block flag1 hdr1 sym1 ;; probe_block flag2 hdr2 sym2) P s
          = Ok tt s' ∧
    macros s' !! flag1 =
      Some (sync_value (macros s !! flag1) (detects hdr1 sym1 P (macros s))) ∧
    macros s' !! flag2 =
      Some (if crosses flag1 hdr1 flag2 hdr2 sym2 P (macros s) then ENum 1
            else sync_value (macros s !! flag2)
                   (detects hdr2 sym2 P (macros s))).
Proof.
  intros Hf Hs2 Hh1 Hh2.
  destruct (macros s !! flag1) as [v|] eqn:E1.
  - assert (R1 : probe_block flag1 hdr1 sym1 P s
                 = Ok tt (log (EvDefined flag1) s)).
    { unfold probe_block.
      by rewrite run_when, run_not, run_defined, bool_decide_true. }
    destruct (probe_block_result flag2 hdr2 sym2 P (log (EvDefined flag1) s))
      as (s2 & R2 & V2 & O2).
    rewrite !macros_log in V2, O2.
    exists s2. split_and!.
    + apply bind_Ok. by exists tt, (log (EvDefined flag1) s).
    + rewrite O2, E1; [done | done |]. intros H HH. by apply Hh2.
    + rewrite V2. unfold crosses, is_defined. rewrite E1.
      by rewrite (bool_decide_true (is_Some (Some v))) by done.
  - destruct (probe_block_run flag1 hdr1 sym1 P s E1) as (s1 & R1 & M1 & _).
    destruct (probe_block_result flag2 hdr2 sym2 P s1) as (s2 & R2 & V2 & O2).
    exists s2. split_and!.
    + apply bind_Ok. by exists tt, s1.
    + rewrite O2, M1, lookup_insert_eq; [| done | intros H HH; by apply Hh2].
      cbn [sync_value]. by destruct (detects hdr1 sym1 P (macros s)).
    + rewrite V2, M1, lookup_insert_ne by done.
      rewrite (detects_ext hdr2 sym2 P _ (with_header P (macros s) hdr1))
        by (by rewrite lookup_insert_ne).
      rewrite detects_after.
      assert (Eo : with_header P (macros s) hdr1 !! flag2 = macros s !! flag2).
      { unfold with_header. destruct (headers P !! hdr1) as [H|] eqn:HH; [| done].
        apply lookup_union_r. by apply Hh1. }
      rewrite Eo. unfold crosses, is_defined. rewrite E1.
      rewrite (bool_decide_false (is_Some None)) by (by intros [??]).
      destruct (macros s !! flag2) as [w|].
      * by rewrite (bool_decide_true (is_Some (Some w))) by done.
      * rewrite (bool_decide_false (is_Some None)) by (by intros [??]).
        cbn [negb andb sync_value].
        by destruct (detects hdr2 sym2 P (macros s)), (provides P hdr1 sym2),
          (bool_decide (is_Some (headers P !! hdr2))).
Qed.

(** C9 as stated fails.  On a system whose <unistd.h> brings
    [F_FULLFSYNC] along and whose <fcntl.h> does not define it, and
    whose headers define none of the configuration names, nothing
    overrides [HAVE_FULLFSYNC] and its own probe, <fcntl.h> included in
    the table of the build, answers no.  Yet the header resolves
    [HAVE_FULLFSYNC] to 1, and so do the two sync blocks in the order of
    the source; in the other order they resolve it to 0; and so does the
    header when the build overrides [HAVE_FDATASYNC], an override that
    leaves the override and the probe names of [HAVE_FULLFSYNC] as they
    were. *)
Lemma fullfsync_depends_on_fdatasync_block :
  hygienic overlap ∧
  macros (cmdline []) !! "HAVE_FULLFSYNC" = None ∧
  detects "fcntl.h" "F_FULLFSYNC" overlap (macros (cmdline [])) = false ∧
  macros (cmdline [("HAVE_FDATASYNC", ENum 0)]) !! "HAVE_FULLFSYNC" =
    macros (cmdline []) !! "HAVE_FULLFSYNC" ∧
  agree_on (probe_names HasFullFsync)
    (macros (cmdline [("HAVE_FDATASYNC", ENum 0)])) (macros (cmdline [])) ∧
  (∃ s', port_config overlap (cmdline []) = Ok tt s' ∧
         macros s' !! "HAVE_FULLFSYNC" = Some (ENum 1) ∧
         fact_value 1 s' HasFullFsync = Some 1) ∧
  (∃ s', port_config overlap (cmdline [("HAVE_FDATASYNC", ENum 0)]) = Ok tt s' ∧
         macros s' !! "HAVE_FULLFSYNC" = Some (ENum 0) ∧
         fact_value 1 s' HasFullFsync = Some 0) ∧
  (∃ s12, (check_fdatasync ;; check_fullfsync) overlap (cmdline []) = Ok tt s12 ∧
          macros s12 !! "HAVE_FULLFSYNC" = Some (ENum 1)) ∧
  (∃ s21, (check_fullfsync ;; check_fdatasync) overlap (cmdline []) = Ok tt s21 ∧
          macros s21 !! "HAVE_FULLFSYNC" = Some (ENum 0)).
Proof.
  split; [by_compute |]. split; [by vm_compute |]. split; [by vm_compute |].
  split; [by vm_compute |]. split; [by_compute |].
  split_and!; eexists; split_and!; by vm_compute.
Qed.

(** C9.  Processing the header a second time changes nothing: the
    include guard is defined, its test is the only thing evaluated, and
    the macro table and the declarations are those of the first pass.
    The block of each of the five facts reads the override of that fact
    and its own probe names in the macro table as it stands when the
    block is reached, and nothing else of it: in two tables that agree
    on those, it ends alike.  The blocks share that table, so the two
    sync blocks do not commute in general.  On a platform whose headers
    define none of the configuration names, the block processed first
    resolves [sync_value] of its own override and the answer of its own
    probe in the table the build passed; the block processed second
    resolves the same of its own, except where the first block
    [crosses] its probe, and then it resolves 1 where on its own it
    resolves 0.  The whole header resolves what the order of the source
    resolves.  The two orders resolve the same two values exactly when
    neither block crosses the probe of the other, which is so whenever
    [F_FULLFSYNC] and [fdatasync] each come from their own header. *)
Theorem resolution_idempotent_and_blocks_share_table (P : platform)
    (s : pp_state) :
  (∀ s1, port_config P s = Ok tt s1 →
     port_config P s1 =
       Ok tt (State (macros s1) (decls s1)
                    (trace s1 ++ [EvDefined include_guard]))) ∧
  (∀ f t,
     macros s !! fact_macro f = macros t !! fact_macro f →
     agree_on (probe_names f) (macros s) (macros t) →
     same_outcome f (resolve f P s) (resolve f P t)) ∧
  (hygienic P →
   let range := sync_value (macros s !! "HAVE_FDATASYNC")
                  (detects "unistd.h" "fdatasync" P (macros s)) in
   let full := sync_value (macros s !! "HAVE_FULLFSYNC")
                 (detects "fcntl.h" "F_FULLFSYNC" P (macros s)) in
   let range_first := crosses "HAVE_FDATASYNC" "unistd.h"
                        "HAVE_FULLFSYNC" "fcntl.h" "F_FULLFSYNC" P (macros s) in
   let full_first := crosses "HAVE_FULLFSYNC" "fcntl.h"
                       "HAVE_FDATASYNC" "unistd.h" "fdatasync" P (macros s) in
   (∃ s12, (check_fdatasync ;; check_fullfsync) P s = Ok tt s12 ∧
           macros s12 !! "HAVE_FDATASYNC" = Some range ∧
           macros s12 !! "HAVE_FULLFSYNC" =
             Some (if range_first then ENum 1 else full)) ∧
   (∃ s21, (check_fullfsync ;; check_fdatasync) P s = Ok tt s21 ∧
           macros s21 !! "HAVE_FDATASYNC" =
             Some (if full_first then ENum 1 else range) ∧
           macros s21 !! "HAVE_FULLFSYNC" = Some full) ∧
   (macros s !! include_guard = None →
    ∀ s', port_config P s = Ok tt s' →
      macros s' !! "HAVE_FDATASYNC" = Some range ∧
      macros s' !! "HAVE_FULLFSYNC" =
        Some (if range_first then ENum 1 else full)) ∧
   (range_first = true → full = ENum 0) ∧
   (full_first = true → range = ENum 0) ∧
   (∀ s12 s21,
      (check_fdatasync ;; check_fullfsync) P s = Ok tt s12 →
      (check_fullfsync ;; check_fdatasync) P s = Ok tt s21 →
      (macros s12 !! "HAVE_FDATASYNC" = macros s21 !! "HAVE_FDATASYNC" ∧
       macros s12 !! "HAVE_FULLFSYNC" = macros s21 !! "HAVE_FULLFSYNC")
      ↔ (range_first = false ∧ full_first = false)) ∧
   (probes_separate P → range_first = false ∧ full_first = false)).
Proof.
  split_and!.
  - intros s1 Hrun. apply port_config_guarded.
    destruct (macros s !! include_guard) as [g|] eqn:Hg.
    + rewrite port_config_guarded in Hrun by done. injection Hrun as <-.
      by rewrite macros_log, Hg.
    + rewrite port_config_fresh in Hrun by done.
      eapply grows_run_blocks; [exact Hrun |].
      cbn [enter macros]. by rewrite lookup_insert_eq.
  - intros f t. apply resolve_own_inputs.
  - intros HP range full range_first full_first.
    assert (H12 : ∀ t, ∃ s12,
      (check_fdatasync ;; check_fullfsync) P t = Ok tt s12 ∧
      macros s12 !! "HAVE_FDATASYNC" =
        Some (sync_value (macros t !! "HAVE_FDATASYNC")
                (detects "unistd.h" "fdatasync" P (macros t))) ∧
      macros s12 !! "HAVE_FULLFSYNC" =
        Some (if crosses "HAVE_FDATASYNC" "unistd.h" "HAVE_FULLFSYNC"
                   "fcntl.h" "F_FULLFSYNC" P (macros t) then ENum 1
              else sync_value (macros t !! "HAVE_FULLFSYNC")
                     (detects "fcntl.h" "F_FULLFSYNC" P (macros t)))).
    { intros t. rewrite check_fdatasync_probe, check_fullfsync_probe.
      apply sync_blocks_in_order; [done | done | |].
      - intros H HH. apply (hygienic_fact P _ H HasFullFsync HP HH).
      - intros H HH. apply (hygienic_fact P _ H HasRangeSync HP HH). }
    assert (H21 : ∃ s21,
      (check_fullfsync ;; check_fdatasync) P s = Ok tt s21 ∧
      macros s21 !! "HAVE_FDATASYNC" =
        Some (if full_first then ENum 1 else range) ∧
      macros s21 !! "HAVE_FULLFSYNC" = Some full).
    { rewrite check_fdatasync_probe, check_fullfsync_probe.
      destruct (sync_blocks_in_order
                  "HAVE_FULLFSYNC" "fcntl.h" "F_FULLFSYNC"
                  "HAVE_FDATASYNC" "unistd.h" "fdatasync" P s)
        as (s21 & R & V2 & V1); [done | done | | | by eauto].
      - intros H HH. apply (hygienic_fact P _ H HasRangeSync HP HH).
      - intros H HH. apply (hygienic_fact P _ H HasFullFsync HP HH). }
    assert (Hfull : range_first = true → full = ENum 0)
      by apply crosses_own_value.
    assert (Hrange : full_first = true → range = ENum 0)
      by apply crosses_own_value.
    split_and!.
    + apply H12.
    + apply H21.
    + intros Hg s'. rewrite port_config_fresh by done.
      change all_facts with ([HasRangeSync; HasFullFsync] ++
        [HasHardwareCrc; HasCompressionLib; IsBigEndian]).
      intros (s2 & Hpre & Hpost)%run_blocks_app.
      destruct (H12 (enter s)) as (s12 & R & V1 & V2).
      assert (s2 = s12) as ->.
      { apply run_blocks_cons in Hpre as (t1 & HA & Hpre).
        apply run_blocks_cons in Hpre as (t2 & HB & Hnil).
        apply bind_Ok in R as ([] & u1 & RA & RB).
        cbn [resolve] in HA, HB. injection Hnil as <-. congruence. }
      assert (Hent : ∀ x, x ≠ include_guard →
                macros (enter s) !! x = macros s !! x).
      { intros x Hx. cbn [enter macros]. by rewrite lookup_insert_ne. }
      rewrite (crosses_ext _ _ _ _ _ P (macros (enter s)) (macros s)) in V2
        by (by apply Hent).
      rewrite !Hent in V1, V2 by done.
      rewrite (detects_ext _ _ P (macros (enter s)) (macros s)) in V1
        by (by apply Hent).
      rewrite (detects_ext _ _ P (macros (enter s)) (macros s)) in V2
        by (by apply Hent).
      split.
      * eapply (run_blocks_keeps _ "HAVE_FDATASYNC"); eauto.
        apply (fact_macro_config HasRangeSync).
      * eapply (run_blocks_keeps _ "HAVE_FULLFSYNC"); eauto.
        apply (fact_macro_config HasFullFsync).
    + exact Hfull.
    + exact Hrange.
    + intros s12 s21 R12 R21.
      destruct (H12 s) as (s12' & R12' & VA & VB).
      destruct H21 as (s21' & R21' & WA & WB).
      rewrite R12 in R12'. injection R12' as <-.
      rewrite R21 in R21'. injection R21' as <-.
      rewrite VA, VB, WA, WB.
      fold range full range_first.
      destruct range_first eqn:E1, full_first eqn:E2.
      * rewrite Hfull by done. split; [intros [_ [=]] | intros [[=] _]].
      * rewrite Hfull by done. split; [intros [_ [=]] | intros [[=] _]].
      * rewrite Hrange by done. split; [intros [[=] _] | intros [_ [=]]].
      * done.
    + apply probes_separate_crosses.
Qed.

Lemma resolution_idempotent_and_blocks_share_table_witness :
  (∃ s12, (check_fdatasync ;; check_fullfsync) overlap (cmdline []) = Ok tt s12 ∧
          macros s12 !! "HAVE_FDATASYNC" = Some (ENum 0) ∧
          macros s12 !! "HAVE_FULLFSYNC" = Some (ENum 1)) ∧
  (∃ s21, (check_fullfsync ;; check_fdatasync) darwin
            (cmdline [("OS_MACOSX", ENum 1)]) = Ok tt s21 ∧
          macros s21 !! "HAVE_FDATASYNC" = Some (ENum 0) ∧
          macros s21 !! "HAVE_FULLFSYNC" = Some (ENum 1)).
Proof.
  split.
  - destruct (resolution_idempotent_and_blocks_share_table overlap (cmdline []))
      as (_ & _ & H).
    destruct (H ltac:(by_compute)) as ((s12 & R & V1 & V2) & _).
    exists s12. split; [exact R |]. split; [exact V1 | exact V2].
  - destruct (resolution_idempotent_and_blocks_share_table darwin
                (cmdline [("OS_MACOSX", ENum 1)])) as (_ & _ & H).
    destruct (H ltac:(by_compute)) as (_ & (s21 & R & V1 & V2) & _).
    exists s21. split; [exact R |]. split; [exact V1 | exact V2].
Defined.

(** ** The scenarios of the specification, run *)

(** Apple-family, little-endian Darwin symbols: not big-endian. *)
Example scenario_apple_little_endian :
  ∃ s', port_config darwin (cmdline [("OS_MACOSX", ENum 1)]) = Ok tt s' ∧
        fact_value 4 s' IsBigEndian = Some 0.
Proof. eexists. split; by vm_compute. Qed.

(** HP-UX: big-endian without any header. *)
Example scenario_hpux :
  ∃ s', port_config freestanding (cmdline [("OS_HPUX", ENum 1)]) = Ok tt s' ∧
        fact_value 1 s' IsBigEndian = Some 1.
Proof. eexists. split; by vm_compute. Qed.

(** An override of [HAVE_FULLFSYNC] on a platform without [F_FULLFSYNC]. *)
Example scenario_override_fullfsync :
  ∃ s', port_config glibc_linux (cmdline [("HAVE_FULLFSYNC", ENum 1)]) = Ok tt s' ∧
        fact_value 1 s' HasFullFsync = Some 1 ∧
        EvHasInclude "fcntl.h" ∉ trace s'.
Proof.
  eexists. split; [by vm_compute |]. split; [by vm_compute |].
  apply (bool_decide_unpack _). by vm_compute.
Qed.

(** * Further properties of the header *)

(** ** Which arm is taken *)

(** The platform macros an arm tests, and those the arms before it
    test, in the order of the [#if]/[#elif] chain (lines 48-74). *)
Definition names_of (r : rule) : list string :=
  match r with
  | Apple => ["OS_MACOSX"; "OS_IOS"]
  | Solaris => ["OS_SOLARIS"]
  | Bsd => ["OS_FREEBSD"; "OS_OPENBSD"; "OS_NETBSD"; "OS_DRAGONFLYBSD"]
  | Hpux => ["OS_HPUX"]
  | Android => ["OS_ANDROID"]
  | Generic => []
  end.

Definition names_before (r : rule) : list string :=
  match r with
  | Apple => []
  | Solaris => names_of Apple
  | Bsd => names_of Apple ++ names_of Solaris
  | Hpux => names_of Apple ++ names_of Solaris ++ names_of Bsd
  | Android => names_of Apple ++ names_of Solaris ++ names_of Bsd ++ names_of Hpux
  | Generic => os_names
  end.

(** [r] is the first arm whose test holds in table [m]; for the
    [#else] arm, no test holds. *)
Definition first_match (r : rule) (m : gmap string pp_expr) : Prop :=
  Forall (λ x, m !! x = None) (names_before r) ∧
  (r = Generic ∨ Exists (λ x, is_Some (m !! x)) (names_of r)).

Global Instance rule_eq_dec : EqDecision rule.
Proof. solve_decision. Defined.

Global Instance first_match_dec r m : Decision (first_match r m).
Proof. unfold first_match. apply _. Defined.

Lemma is_defined_None m x : m !! x = None → is_defined m x = false.
Proof.
  intros E. unfold is_defined. rewrite E.
  by rewrite bool_decide_false by (by intros [??]).
Qed.

Lemma is_defined_Some m x : is_Some (m !! x) → is_defined m x = true.
Proof. intros E. unfold is_defined. by rewrite bool_decide_true. Qed.

Lemma first_match_matched r m : first_match r m → matched_rule m = r.
Proof.
  intros [Hb Hr]. unfold matched_rule.
  rewrite Forall_forall in Hb.
  destruct r; cbn [names_before names_of app] in Hb;
    rewrite ?(is_defined_None m) by (apply Hb; unfold os_names; repeat constructor);
    cbn [orb];
    (destruct Hr as [Hr | Hr]; [try done |]);
    cbn [names_of] in Hr;
    repeat (apply Exists_cons in Hr as [Hr | Hr];
            [by rewrite (is_defined_Some _ _ Hr), ?orb_true_r |]);
    by apply Exists_nil in Hr.
Qed.

Lemma matched_rule_first_match m : first_match (matched_rule m) m.
Proof.
  unfold matched_rule, is_defined, first_match.
  repeat (case_bool_decide; cbn [orb]);
    cbn [names_before names_of app os_names];
    repeat match goal with
    | H : ¬ is_Some (_ !! _) |- _ => apply eq_None_not_Some in H
    end;
    (split; [repeat constructor; assumption |]);
    first [by left | right];
    repeat first [by apply Exists_cons_hd | apply Exists_cons_tl].
Qed.

(** ** The headers the header includes *)

(** The headers included along a trace, in order. *)
Definition included (tr : list event) : list string :=
  omap (λ ev, match ev with EvInclude h => Some h | _ => None end) tr.

Lemma included_app tr1 tr2 : included (tr1 ++ tr2) = included tr1 ++ included tr2.
Proof. apply omap_app. Qed.

(** Runs a block on every path: rewrites with the run equations and
    splits on each test and each header it meets. *)
Ltac pp_paths P :=
  repeat first
    [ progress pp_run
    | rewrite run_include
    | match goal with
      | |- context [bool_decide (is_Some (headers P !! ?h))] =>
          destruct (headers P !! h) eqn:?;
          [rewrite bool_decide_true by done
          |rewrite bool_decide_false by (by intros [??])]
      | |- context [match headers P !! ?h with _ => _ end] =>
          destruct (headers P !! h) eqn:?
      | |- context [bool_decide (is_Some (_ !! _))] => case_bool_decide
      end ].

Ltac included_trace :=
  unfold log; cbn [trace]; rewrite ?included_app; cbn [included omap];
  rewrite ?app_nil_r, <- ?app_assoc; reflexivity.

Lemma check_endianness_included P s s' :
  macros s !! "LEVELDB_IS_BIG_ENDIAN" = None →
  check_endianness P s = Ok tt s' →
  included (trace s') =
    included (trace s) ++ rule_headers (matched_rule (macros s)).
Proof.
  intros Hs. unfold check_endianness, matched_rule, is_defined.
  pp_run. rewrite Hs, bool_decide_false by (by intros [??]). cbn [negb].
  repeat (case_bool_decide; cbn [orb]; pp_run);
    cbn [rule_headers]; pp_paths P;
    first [discriminate | intros [= <-]; included_trace].
Qed.

(** The headers the block of a fact includes when it starts in table
    [m]: none under an override; the probed header if it is found, for
    the two sync blocks; the headers of the matched arm, for the
    endianness block. *)
Definition block_includes (f : fact) (P : platform)
    (m : gmap string pp_expr) : list string :=
  if is_defined m (fact_macro f) then []
  else
    match f with
    | HasRangeSync =>
        if bool_decide (is_Some (headers P !! "unistd.h"))
        then ["unistd.h"] else []
    | HasFullFsync =>
        if bool_decide (is_Some (headers P !! "fcntl.h"))
        then ["fcntl.h"] else []
    | HasHardwareCrc | HasCompressionLib => []
    | IsBigEndian => rule_headers (matched_rule m)
    end.

Definition header_includes (P : platform) (m : gmap string pp_expr)
    : list string :=
  concat ((λ f, block_includes f P m) <$> all_facts).

Lemma probe_block_included flag hdr sym P s s' :
  macros s !! flag = None →
  probe_block flag hdr sym P s = Ok tt s' →
  included (trace s') =
    included (trace s) ++
    (if bool_decide (is_Some (headers P !! hdr)) then [hdr] else []).
Proof.
  intros Hs. unfold probe_block. pp_run. rewrite Hs.
  rewrite bool_decide_false by (by intros [??]). cbn [negb].
  pp_paths P; first [discriminate | intros [= <-]; included_trace].
Qed.

Lemma resolve_included f P s s' :
  resolve f P s = Ok tt s' →
  included (trace s') = included (trace s) ++ block_includes f P (macros s).
Proof.
  unfold block_includes.
  destruct (macros s !! fact_macro f) as [v|] eqn:Hs.
  { rewrite resolve_override, is_defined_Some by done. intros [= <-].
    rewrite trace_log, included_app. done. }
  rewrite is_defined_None by done.
  destruct f; cbn [resolve fact_macro] in *.
  - rewrite check_fdatasync_probe. by apply probe_block_included.
  - rewrite check_fullfsync_probe. by apply probe_block_included.
  - unfold check_crc32c. rewrite default_block_run by done.
    intros [= <-]. included_trace.
  - unfold check_snappy. rewrite default_block_run by done.
    intros [= <-]. included_trace.
  - by apply check_endianness_included.
Qed.

Lemma block_includes_agree f P m m' :
  m !! fact_macro f = m' !! fact_macro f →
  (∀ x, x ∈ os_names → m !! x = m' !! x) →
  block_includes f P m = block_includes f P m'.
Proof.
  intros Ef Eos. unfold block_includes, is_defined. rewrite Ef.
  destruct f; try done. by rewrite (matched_rule_ext m m').
Qed.

Lemma block_includes_frame f g P s s1 :
  hygienic P → resolve f P s = Ok tt s1 → g ≠ f →
  block_includes g P (macros s1) = block_includes g P (macros s).
Proof.
  intros HP Hrun Hne. apply block_includes_agree.
  - assert (fact_macro g ≠ fact_macro f) as Hm
      by (intros E; by apply fact_macro_inj in E).
    exact (frames_resolve f _ (fact_macro_config g) Hm P s tt s1 HP Hrun).
  - intros x Hx.
    assert (x ≠ fact_macro f) as Hm.
    { intros ->. apply (os_name_not_fact _ [f] Hx).
      apply list_elem_of_fmap. exists f. split; [done | by left]. }
    exact (frames_resolve f x (os_name_config x Hx) Hm P s tt s1 HP Hrun).
Qed.

Lemma run_blocks_included fs P s s' :
  hygienic P → NoDup fs →
  run_blocks fs P s = Ok tt s' →
  included (trace s') =
    included (trace s) ++ concat ((λ f, block_includes f P (macros s)) <$> fs).
Proof.
  intros HP. revert s. induction fs as [|f fs IH]; intros s Hnd.
  - cbn [run_blocks foldr]. rewrite run_ret. intros [= <-].
    by rewrite app_nil_r.
  - apply NoDup_cons in Hnd as [Hf Hnd].
    intros (s1 & H1 & H2)%run_blocks_cons.
    rewrite (IH s1 Hnd H2), (resolve_included f P s s1 H1).
    cbn [fmap list_fmap concat]. rewrite <- app_assoc. do 3 f_equal.
    apply list_fmap_ext. intros i g Hg.
    apply (block_includes_frame f g P s s1 HP H1).
    intros ->. apply Hf. by eapply list_elem_of_lookup_2.
Qed.

Lemma enter_includes f P s :
  block_includes f P (macros (enter s)) = block_includes f P (macros s).
Proof.
  apply block_includes_agree; cbn [enter macros].
  - apply lookup_insert_ne. intros E. by apply (fact_macro_not_guard f).
  - intros x Hx. apply lookup_insert_ne. intros <-.
    unfold include_guard, os_names in Hx. not_in_list Hx.
Qed.

Lemma all_facts_NoDup : NoDup all_facts.
Proof. apply (bool_decide_unpack _). by vm_compute. Qed.

(** X1. The system headers that processing the header includes, in
    order: <unistd.h> and <fcntl.h>, each if it is found and its fact
    has no override, then the headers of the endianness arm the platform
    macros select, if [LEVELDB_IS_BIG_ENDIAN] has no override -- and no
    other header.  A second inclusion of the header, stopped by the
    guard, includes nothing. *)
Theorem port_config_includes (P : platform) (s s' : pp_state) :
  port_config P s = Ok tt s' →
  (is_Some (macros s !! include_guard) →
   included (trace s') = included (trace s)) ∧
  (hygienic P → macros s !! include_guard = None →
   included (trace s') =
     included (trace s) ++
     block_includes HasRangeSync P (macros s) ++
     block_includes HasFullFsync P (macros s) ++
     block_includes IsBigEndian P (macros s)).
Proof.
  intros Hrun. split.
  - intros Hg. rewrite port_config_guarded in Hrun by done.
    injection Hrun as <-. rewrite trace_log, included_app. apply app_nil_r.
  - intros HP Hg. rewrite port_config_fresh in Hrun by done.
    rewrite (run_blocks_included all_facts P (enter s) s' HP all_facts_NoDup Hrun).
    cbn [enter trace]. rewrite included_app. cbn [included omap].
    rewrite app_nil_r. f_equal.
    cbn [all_facts fmap list_fmap concat]. rewrite !enter_includes.
    replace (block_includes HasHardwareCrc P (macros s)) with (@nil string)
      by (unfold block_includes; by destruct (is_defined _ _)).
    replace (block_includes HasCompressionLib P (macros s)) with (@nil string)
      by (unfold block_includes; by destruct (is_defined _ _)).
    cbn [app]. by rewrite app_nil_r.
Qed.

Lemma port_config_includes_witness :
  ∃ s', port_config freebsd_be (cmdline [("OS_FREEBSD", ENum 1)]) = Ok tt s' ∧
        included (trace s') =
          ["unistd.h"; "fcntl.h"; "sys/types.h"; "sys/endian.h"].
Proof.
  eexists. split; [by vm_compute |].
  apply (port_config_includes freebsd_be (cmdline [("OS_FREEBSD", ENum 1)]));
    [by vm_compute | by_compute | by vm_compute].
Defined.

Lemma endianness_first_match_included P s s' r :
  check_endianness P s = Ok tt s' →
  macros s !! "LEVELDB_IS_BIG_ENDIAN" = None →
  first_match r (macros s) →
  included (trace s') = included (trace s) ++ rule_headers r.
Proof.
  intros Hrun Hs Hr. rewrite <- (first_match_matched r _ Hr).
  by apply (check_endianness_included P).
Qed.

(** X2. The endianness chain is ordered: with no override, the block
    includes the headers of the first arm whose test holds, in the
    order of the source, and nothing of a later arm whose platform
    macro is also defined; under an override it includes nothing. *)
Theorem endianness_first_match_wins (P : platform) (s s' : pp_state)
    (r : rule) :
  check_endianness P s = Ok tt s' →
  (is_Some (macros s !! "LEVELDB_IS_BIG_ENDIAN") →
   included (trace s') = included (trace s)) ∧
  (macros s !! "LEVELDB_IS_BIG_ENDIAN" = None →
   first_match r (macros s) →
   included (trace s') = included (trace s) ++ rule_headers r).
Proof.
  intros Hrun. split.
  - intros Hs. pose proof (resolve_override IsBigEndian P s Hs) as E.
    cbn [resolve] in E. rewrite E in Hrun. injection Hrun as <-. rewrite trace_log, included_app. apply app_nil_r.
  - intros Hs Hr. by apply (endianness_first_match_included P).
Qed.

Lemma endianness_first_match_wins_witness :
  ∃ s', check_endianness darwin
          (cmdline [("OS_ANDROID", ENum 1); ("OS_IOS", ENum 1)]) = Ok tt s' ∧
        included (trace s') = ["machine/endian.h"].
Proof.
  eexists. split; [by vm_compute |].
  apply (endianness_first_match_wins darwin
           (cmdline [("OS_ANDROID", ENum 1); ("OS_IOS", ENum 1)]) _ Apple);
    [by vm_compute | by vm_compute | by_compute].
Defined.

(** ** The arms of the endianness chain *)

Lemma all_found_first_missing P hs :
  Forall (λ h, is_Some (headers P !! h)) hs → first_missing P hs = None.
Proof.
  intros Hall. apply first_missing_None. by apply Forall_forall.
Qed.

(** The table an arm leaves, for the block and for the whole header,
    when the arm's headers are found. *)
Lemma endianness_arm_run P s r :
  first_match r (macros s) →
  macros s !! "LEVELDB_IS_BIG_ENDIAN" = None →
  Forall (λ h, is_Some (headers P !! h)) (rule_headers r) →
  (∃ s', check_endianness P s = Ok tt s' ∧
         macros s' = arm_table r P (macros s)) ∧
  (hygienic P → macros s !! include_guard = None →
   ∃ s4 s', run_blocks (before IsBigEndian) P (enter s) = Ok tt s4 ∧
            port_config P s = Ok tt s' ∧
            macros s' = arm_table r P (macros s4)).
Proof.
  intros Hr Hs Hall. apply first_match_matched in Hr.
  apply all_found_first_missing in Hall. split.
  - pose proof (check_endianness_run P s Hs) as Hb. cbn zeta in Hb.
    by rewrite Hr, Hall in Hb.
  - intros HP Hg.
    destruct (port_config_run P s HP Hg Hs) as (s4 & H4 & Hw).
    rewrite Hr, Hall in Hw. destruct Hw as (s' & ? & ?). by exists s4, s'.
Qed.

Lemma is_defined_insert_ne m x y v :
  x ≠ y → is_defined (<[x := v]> m) y = is_defined m y.
Proof. intros Hne. unfold is_defined. by rewrite lookup_insert_ne. Qed.

(** X3. Solaris (lines 54-60): with no override and <sys/isa_defs.h>
    found, [LEVELDB_IS_BIG_ENDIAN] is [true] when [_BIG_ENDIAN] is
    defined once the header is included and [false] when it is not --
    the arm tests the symbol, never its value, and always defines the
    macro. *)
Theorem solaris_big_endian_indicator (P : platform) (s : pp_state)
    (H : header) :
  first_match Solaris (macros s) →
  macros s !! "LEVELDB_IS_BIG_ENDIAN" = None →
  headers P !! "sys/isa_defs.h" = Some H →
  (∃ s', check_endianness P s = Ok tt s' ∧
     macros s' = <["LEVELDB_IS_BIG_ENDIAN" :=
                    EBool (is_defined (h_macros H ∪ macros s) "_BIG_ENDIAN")]>
                   (h_macros H ∪ macros s) ∧
     ∀ k, fact_value (S k) s' IsBigEndian =
            Some (Z.b2z (is_defined (macros s') "_BIG_ENDIAN"))) ∧
  (hygienic P → macros s !! include_guard = None →
   ∃ s', port_config P s = Ok tt s' ∧
     macros s' !! "LEVELDB_IS_BIG_ENDIAN" =
       Some (EBool (is_defined (macros s') "_BIG_ENDIAN")) ∧
     ∀ k, fact_value (S k) s' IsBigEndian =
            Some (Z.b2z (is_defined (macros s') "_BIG_ENDIAN"))).
Proof.
  intros Hr Hs HH.
  destruct (endianness_arm_run P s Solaris Hr Hs) as [Hb Hw].
  { cbn [rule_headers]. apply Forall_singleton. by rewrite HH. }
  unfold arm_table, with_header in Hb, Hw.
  cbn [rule_headers foldl arm_definition] in Hb, Hw. rewrite HH in Hb, Hw.
  assert (Hval : ∀ s' m,
    macros s' = <["LEVELDB_IS_BIG_ENDIAN" := EBool (is_defined m "_BIG_ENDIAN")]> m →
    macros s' !! "LEVELDB_IS_BIG_ENDIAN" =
      Some (EBool (is_defined (macros s') "_BIG_ENDIAN")) ∧
    ∀ k, fact_value (S k) s' IsBigEndian =
           Some (Z.b2z (is_defined (macros s') "_BIG_ENDIAN"))).
  { intros s' m E. unfold fact_value. cbn [fact_macro].
    rewrite E, is_defined_insert_ne, lookup_insert_eq by done. done. }
  split.
  - destruct Hb as (s' & Hrun & E). exists s'. split_and!; [done | done |].
    by apply (Hval s' _ E).
  - intros HP Hg. destruct (Hw HP Hg) as (s4 & s' & _ & Hrun & E).
    exists s'. split; [done |]. by apply (Hval s' _ E).
Qed.

Lemma solaris_big_endian_indicator_witness :
  ∃ s', port_config
          (Platform (list_to_map [
             ("sys/isa_defs.h", Header (list_to_map [("_BIG_ENDIAN", EEmpty)]) ∅)]))
          (cmdline [("OS_SOLARIS", ENum 1)]) = Ok tt s' ∧
        fact_value 1 s' IsBigEndian = Some 1.
Proof.
  destruct (solaris_big_endian_indicator
              (Platform (list_to_map [
                 ("sys/isa_defs.h", Header (list_to_map [("_BIG_ENDIAN", EEmpty)]) ∅)]))
              (cmdline [("OS_SOLARIS", ENum 1)])
              (Header (list_to_map [("_BIG_ENDIAN", EEmpty)]) ∅))
    as [_ Hw]; [by_compute | by vm_compute | by vm_compute |].
  destruct Hw as (s' & Hrun & _ & Hval); [by_compute | by vm_compute |].
  exists s'. split; [exact Hrun |]. rewrite Hval.
  vm_compute in Hrun. injection Hrun as <-. by vm_compute.
Defined.

(** X4. HP-UX (lines 66-67): with no override the arm defines
    [LEVELDB_IS_BIG_ENDIAN] as [true] and does nothing else: it includes
    no header, so on HP-UX the block cannot fail and the table gains
    that one definition, whatever headers the platform has; the whole
    header is then processed to its end on every platform. *)
Theorem hpux_is_big_endian (P : platform) (s : pp_state) :
  first_match Hpux (macros s) →
  macros s !! "LEVELDB_IS_BIG_ENDIAN" = None →
  (∃ s', check_endianness P s = Ok tt s' ∧
     macros s' = <["LEVELDB_IS_BIG_ENDIAN" := EBool true]> (macros s) ∧
     included (trace s') = included (trace s) ∧
     ∀ k, fact_value (S k) s' IsBigEndian = Some 1) ∧
  (hygienic P → macros s !! include_guard = None →
   ∃ s', port_config P s = Ok tt s' ∧
     macros s' !! "LEVELDB_IS_BIG_ENDIAN" = Some (EBool true) ∧
     ∀ k, fact_value (S k) s' IsBigEndian = Some 1).
Proof.
  intros Hr Hs.
  destruct (endianness_arm_run P s Hpux Hr Hs) as [Hb Hw].
  { cbn [rule_headers]. constructor. }
  unfold arm_table in Hb, Hw.
  cbn [rule_headers foldl arm_definition] in Hb, Hw.
  assert (Hval : ∀ s' m,
    macros s' = <["LEVELDB_IS_BIG_ENDIAN" := EBool true]> m →
    macros s' !! "LEVELDB_IS_BIG_ENDIAN" = Some (EBool true) ∧
    ∀ k, fact_value (S k) s' IsBigEndian = Some 1).
  { intros s' m E. unfold fact_value. cbn [fact_macro].
    by rewrite E, lookup_insert_eq. }
  split.
  - destruct Hb as (s' & Hrun & E). exists s'. split_and!; [done | done | |].
    + rewrite (endianness_first_match_included P s s' Hpux Hrun Hs Hr).
      apply app_nil_r.
    + by apply (Hval s' _ E).
  - intros HP Hg. destruct (Hw HP Hg) as (s4 & s' & _ & Hrun & E).
    exists s'. split; [done |]. by apply (Hval s' _ E).
Qed.

Lemma hpux_is_big_endian_witness :
  ∃ s', port_config freestanding (cmdline [("OS_HPUX", ENum 1)]) = Ok tt s' ∧
        macros s' !! "LEVELDB_IS_BIG_ENDIAN" = Some (EBool true).
Proof.
  destruct (hpux_is_big_endian freestanding (cmdline [("OS_HPUX", ENum 1)]))
    as [_ Hw]; [by_compute | by vm_compute |].
  destruct Hw as (s' & Hrun & Hdef & _); [by_compute | by vm_compute |].
  by exists s'.
Defined.

(** The value of a macro defined as the comparison of two symbols:
    that of the comparison where both symbols have a value, none where
    one of them has none. *)
Definition compares (a b : string) (s : pp_state) : Prop :=
  macros s !! "LEVELDB_IS_BIG_ENDIAN" = Some (EEq (EId a) (EId b)) ∧
  ∀ k, fact_value (S k) s IsBigEndian =
         match eval k (macros s) (EId a), eval k (macros s) (EId b) with
         | Some x, Some y => Some (Z.b2z (x =? y))
         | _, _ => None
         end.

Lemma compares_intro a b s :
  macros s !! "LEVELDB_IS_BIG_ENDIAN" = Some (EEq (EId a) (EId b)) →
  compares a b s.
Proof.
  intros E. split; [done |]. intros k. unfold fact_value.
  cbn [fact_macro]. rewrite E. cbn [mbind option_bind eval].
  destruct (eval k (macros s) (EId a)); [| done]. cbn.
  by destruct (eval k (macros s) (EId b)).
Qed.

Lemma comparison_arm P s r a b :
  first_match r (macros s) →
  macros s !! "LEVELDB_IS_BIG_ENDIAN" = None →
  unconditional_comparison r = Some (EEq (EId a) (EId b)) →
  Forall (λ h, is_Some (headers P !! h)) (rule_headers r) →
  (∃ s', check_endianness P s = Ok tt s' ∧ compares a b s') ∧
  (hygienic P → macros s !! include_guard = None →
   ∃ s', port_config P s = Ok tt s' ∧ compares a b s').
Proof.
  intros Hr Hs Hc Hall.
  destruct (endianness_arm_run P s r Hr Hs Hall) as [Hb Hw].
  assert (Ht : ∀ m, arm_table r P m !! "LEVELDB_IS_BIG_ENDIAN" =
                    Some (EEq (EId a) (EId b))).
  { intros m. unfold arm_table.
    destruct r; cbn [unconditional_comparison] in Hc;
      unfold byte_order_bsd, byte_order_generic in Hc; simplify_eq;
      cbn [arm_definition]; by rewrite lookup_insert_eq. }
  split.
  - destruct Hb as (s' & Hrun & E). exists s'. split; [done |].
    apply compares_intro. by rewrite E.
  - intros HP Hg. destruct (Hw HP Hg) as (s4 & s' & _ & Hrun & E).
    exists s'. split; [done |]. apply compares_intro. by rewrite E.
Qed.

(** X5. Android (lines 68-73): with no override and <endian.h> found,
    [LEVELDB_IS_BIG_ENDIAN] is [(_BYTE_ORDER == _BIG_ENDIAN)], written
    with the single-underscore names: its value is the comparison of
    the values of those two symbols, and it has none when one of them
    has none, whatever [__BYTE_ORDER] and [__BIG_ENDIAN] are. *)
Theorem android_byte_order_comparison (P : platform) (s : pp_state) :
  first_match Android (macros s) →
  macros s !! "LEVELDB_IS_BIG_ENDIAN" = None →
  is_Some (headers P !! "endian.h") →
  (∃ s', check_endianness P s = Ok tt s' ∧
         compares "_BYTE_ORDER" "_BIG_ENDIAN" s') ∧
  (hygienic P → macros s !! include_guard = None →
   ∃ s', port_config P s = Ok tt s' ∧
         compares "_BYTE_ORDER" "_BIG_ENDIAN" s').
Proof.
  intros Hr Hs Hh. apply (comparison_arm P s Android); try done.
  cbn [rule_headers]. by apply Forall_singleton.
Qed.

(** A bionic-like libc whose <endian.h> defines the single-underscore
    names. *)
Definition bionic : platform :=
  Platform (list_to_map [
    ("unistd.h", Header ∅ {["fdatasync"]});
    ("fcntl.h", Header ∅ ∅);
    ("endian.h",
     Header (list_to_map [("_LITTLE_ENDIAN", ENum 1234);
                          ("_BIG_ENDIAN", ENum 4321);
                          ("_BYTE_ORDER", EId "_LITTLE_ENDIAN")]) ∅)]).

Lemma android_byte_order_comparison_witness :
  ∃ s', port_config bionic (cmdline [("OS_ANDROID", ENum 1)]) = Ok tt s' ∧
        fact_value 4 s' IsBigEndian = Some 0.
Proof.
  destruct (android_byte_order_comparison bionic
              (cmdline [("OS_ANDROID", ENum 1)])) as [_ Hw];
    [by_compute | by vm_compute | eexists; by vm_compute |].
  destruct Hw as (s' & Hrun & _ & Hval); [by_compute | by vm_compute |].
  exists s'. split; [exact Hrun |]. rewrite Hval.
  vm_compute in Hrun. injection Hrun as <-. by vm_compute.
Defined.

(** X6. The [#else] arm (lines 74-77): on a target that defines none of
    the platform macros, with no override and <endian.h> found, the
    value of [LEVELDB_IS_BIG_ENDIAN] is the comparison of the values of
    [__BYTE_ORDER] and [__BIG_ENDIAN]; it has no value when one of the
    two has none. *)
Theorem generic_byte_order_comparison (P : platform) (s : pp_state) :
  first_match Generic (macros s) →
  macros s !! "LEVELDB_IS_BIG_ENDIAN" = None →
  is_Some (headers P !! "endian.h") →
  (∃ s', check_endianness P s = Ok tt s' ∧
         compares "__BYTE_ORDER" "__BIG_ENDIAN" s') ∧
  (hygienic P → macros s !! include_guard = None →
   ∃ s', port_config P s = Ok tt s' ∧
         compares "__BYTE_ORDER" "__BIG_ENDIAN" s').
Proof.
  intros Hr Hs Hh. apply (comparison_arm P s Generic); try done.
  cbn [rule_headers]. by apply Forall_singleton.
Qed.

Lemma generic_byte_order_comparison_witness :
  ∃ s', port_config macro_unix (cmdline []) = Ok tt s' ∧
        fact_value 4 s' IsBigEndian = Some 1.
Proof.
  destruct (generic_byte_order_comparison macro_unix (cmdline [])) as [_ Hw];
    [by_compute | by vm_compute | eexists; by vm_compute |].
  destruct Hw as (s' & Hrun & _ & Hval); [by_compute | by vm_compute |].
  exists s'. split; [exact Hrun |]. rewrite Hval.
  vm_compute in Hrun. injection Hrun as <-. by vm_compute.
Defined.

(** X7. Apple family (lines 48-53): with no override and
    <machine/endian.h> found, when [__DARWIN_BIG_ENDIAN] and
    [__DARWIN_BYTE_ORDER] are both defined once the header is included,
    [LEVELDB_IS_BIG_ENDIAN] is their comparison, with the value of that
    comparison. *)
Theorem apple_byte_order_comparison (P : platform) (s : pp_state)
    (H : header) :
  first_match Apple (macros s) →
  macros s !! "LEVELDB_IS_BIG_ENDIAN" = None →
  headers P !! "machine/endian.h" = Some H →
  (is_defined (h_macros H ∪ macros s) "__DARWIN_BIG_ENDIAN" = true →
   is_defined (h_macros H ∪ macros s) "__DARWIN_BYTE_ORDER" = true →
   ∃ s', check_endianness P s = Ok tt s' ∧
         macros s' = <["LEVELDB_IS_BIG_ENDIAN" := byte_order_darwin]>
                       (h_macros H ∪ macros s) ∧
         compares "__DARWIN_BYTE_ORDER" "__DARWIN_BIG_ENDIAN" s') ∧
  (hygienic P → macros s !! include_guard = None →
   is_defined (h_macros H) "__DARWIN_BIG_ENDIAN" = true →
   is_defined (h_macros H) "__DARWIN_BYTE_ORDER" = true →
   ∃ s', port_config P s = Ok tt s' ∧
         compares "__DARWIN_BYTE_ORDER" "__DARWIN_BIG_ENDIAN" s').
Proof.
  intros Hr Hs HH.
  destruct (endianness_arm_run P s Apple Hr Hs) as [Hb Hw].
  { cbn [rule_headers]. apply Forall_singleton. by rewrite HH. }
  unfold arm_table, with_header in Hb, Hw.
  cbn [rule_headers foldl arm_definition] in Hb, Hw. rewrite HH in Hb, Hw.
  split.
  - intros Hbig Hord. rewrite Hbig, Hord in Hb. cbn [andb] in Hb.
    destruct Hb as (s' & Hrun & E). exists s'. split_and!; [done | done |].
    apply compares_intro. by rewrite E, lookup_insert_eq.
  - intros HP Hg Hbig Hord. destruct (Hw HP Hg) as (s4 & s' & _ & Hrun & E).
    rewrite !is_defined_union, Hbig, Hord in E. cbn [orb andb] in E.
    exists s'. split; [done |].
    apply compares_intro. by rewrite E, lookup_insert_eq.
Qed.

Lemma apple_byte_order_comparison_witness :
  ∃ s', port_config darwin (cmdline [("OS_IOS", ENum 1)]) = Ok tt s' ∧
        fact_value 4 s' IsBigEndian = Some 0.
Proof.
  destruct (apple_byte_order_comparison darwin (cmdline [("OS_IOS", ENum 1)])
              (Header (list_to_map [("__DARWIN_LITTLE_ENDIAN", ENum 1234);
                                    ("__DARWIN_BIG_ENDIAN", ENum 4321);
                                    ("__DARWIN_BYTE_ORDER",
                                     EId "__DARWIN_LITTLE_ENDIAN")]) ∅))
    as [_ Hw]; [by_compute | by vm_compute | by vm_compute |].
  destruct Hw as (s' & Hrun & _ & Hval);
    [by_compute | by vm_compute | by vm_compute | by vm_compute |].
  exists s'. split; [exact Hrun |]. rewrite Hval.
  vm_compute in Hrun. injection Hrun as <-. by vm_compute.
Defined.

(** ** How the header can fail *)

(** The headers the endianness arms include. *)
Definition endian_headers : list string :=
  ["machine/endian.h"; "sys/isa_defs.h"; "sys/types.h"; "sys/endian.h";
   "endian.h"].

Lemma rule_headers_endian r h : h ∈ rule_headers r → h ∈ endian_headers.
Proof.
  intros Hh. apply (bool_decide_unpack _).
  destruct r; cbn [rule_headers] in Hh;
    repeat (apply elem_of_cons in Hh as [-> | Hh]; [by vm_compute |]);
    by apply elem_of_nil in Hh.
Qed.

(** X8. Processing the header fails in one way only: on the
    [#include] of an endianness header that the platform lacks, and
    then only for a first inclusion with no override of
    [LEVELDB_IS_BIG_ENDIAN].  It never fails on <unistd.h> or <fcntl.h>,
    which it includes under [__has_include] only; with the override, or
    on a platform that has the five endianness headers, it never fails
    at all. *)
Theorem port_config_failure (P : platform) (s : pp_state) :
  (∀ e, port_config P s = Fatal e →
     macros s !! include_guard = None ∧
     macros s !! "LEVELDB_IS_BIG_ENDIAN" = None ∧
     ∃ h, e = MissingHeader h ∧ h ∈ endian_headers ∧ headers P !! h = None) ∧
  (is_Some (macros s !! "LEVELDB_IS_BIG_ENDIAN") →
   ∃ s', port_config P s = Ok tt s') ∧
  (Forall (λ h, is_Some (headers P !! h)) endian_headers →
   ∃ s', port_config P s = Ok tt s').
Proof.
  assert (Hfail : ∀ e, port_config P s = Fatal e →
     macros s !! include_guard = None ∧
     macros s !! "LEVELDB_IS_BIG_ENDIAN" = None ∧
     ∃ h, e = MissingHeader h ∧ h ∈ endian_headers ∧ headers P !! h = None).
  { intros e Hrun. destruct (macros s !! include_guard) as [g|] eqn:Hg.
    { by rewrite port_config_guarded in Hrun. }
    split; [done |].
    destruct (port_config_endianness P s Hg) as (s4 & H4 & E).
    rewrite E in Hrun.
    destruct (macros s4 !! "LEVELDB_IS_BIG_ENDIAN") as [v|] eqn:Hs4.
    { pose proof (resolve_override IsBigEndian P s4) as Ho.
      cbn [resolve fact_macro] in Ho. rewrite Ho in Hrun by done. done. }
    split.
    - apply eq_None_not_Some. intros Hdef.
      assert (is_Some (macros s4 !! "LEVELDB_IS_BIG_ENDIAN")) as [??].
      { eapply grows_run_blocks; [exact H4 |]. cbn [enter macros].
        by rewrite lookup_insert_ne. }
      congruence.
    - pose proof (check_endianness_run P s4 Hs4) as Hb. cbn zeta in Hb.
      destruct (first_missing P _) as [h|] eqn:Hf.
      + apply first_missing_Some in Hf as [Hin Hh]. exists h.
        split_and!; [congruence | by eapply rule_headers_endian | done].
      + destruct Hb as (? & ? & _). congruence. }
  split_and!; [done | |].
  - intros Hs. destruct (port_config P s) as [[] s'|e] eqn:Hrun; [eauto |].
    destruct (Hfail e eq_refl) as (_ & Hn & _). rewrite Hn in Hs.
    by destruct Hs.
  - intros Hall. destruct (port_config P s) as [[] s'|e] eqn:Hrun; [eauto |].
    destruct (Hfail e eq_refl) as (_ & _ & h & _ & Hin & Hh).
    rewrite Forall_forall in Hall. destruct (Hall h Hin). congruence.
Qed.

Lemma port_config_failure_witness :
  ∃ s', port_config freestanding
          (cmdline [("LEVELDB_IS_BIG_ENDIAN", EBool false)]) = Ok tt s'.
Proof.
  destruct (port_config_failure freestanding
              (cmdline [("LEVELDB_IS_BIG_ENDIAN", EBool false)]))
    as (_ & Hoverride & _).
  apply Hoverride. eexists. by vm_compute.
Defined.

(** ** What the header leaves alone *)

(** The headers the block of a fact can include, and those the whole
    header can. *)
Definition block_headers (f : fact) : list string :=
  match f with
  | HasRangeSync => ["unistd.h"]
  | HasFullFsync => ["fcntl.h"]
  | HasHardwareCrc | HasCompressionLib => []
  | IsBigEndian => endian_headers
  end.

Definition all_headers : list string :=
  "unistd.h" :: "fcntl.h" :: endian_headers.

(** Header [h], if the platform has it, does not define [x]; and none
    of the list [hs] does. *)
Definition defines_not (P : platform) (x h : string) : Prop :=
  match headers P !! h with
  | Some H => h_macros H !! x = None
  | None => True
  end.

Global Instance defines_not_dec P x h : Decision (defines_not P x h).
Proof. unfold defines_not. destruct (headers P !! h); apply _. Defined.

Definition not_defined_by (hs : list string) (P : platform) (x : string)
    : Prop :=
  Forall (defines_not P x) hs.

(** A directive leaves a name [untouched] when, on a platform where
    none of the headers [hs] defines the name, the definition of the
    name is after the directive what it was before. *)
Definition untouched {A} (hs : list string) (x : string) (m : PP A) : Prop :=
  ∀ P s a s',
    not_defined_by hs P x →
    m P s = Ok a s' → macros s' !! x = macros s !! x.

Section untouched_monad.
Context {A B : Type} (hs : list string) (x : string).

Lemma untouched_ret (a : A) : untouched hs x (mret a).
Proof. intros P s a' s' _. rewrite run_ret. by intros [= _ <-]. Qed.

Lemma untouched_bind (m : PP A) (f : A → PP B) :
  untouched hs x m → (∀ a, untouched hs x (f a)) → untouched hs x (m ≫= f).
Proof.
  intros Hm Hf P s b s' HP (a & s1 & H1 & H2)%bind_Ok.
  rewrite (Hf a P s1 b s' HP H2). exact (Hm P s a s1 HP H1).
Qed.
End untouched_monad.

Section untouched_directives.
Context (hs : list string) (x : string).
Implicit Types (c a b : PP bool) (t e : PP unit).

Lemma untouched_defined y : untouched hs x (defined y).
Proof. intros P s a s' _. rewrite run_defined. by intros [= _ <-]. Qed.

Lemma untouched_has_include h : untouched hs x (has_include h).
Proof. intros P s a s' _. rewrite run_has_include. by intros [= _ <-]. Qed.

Lemma untouched_define y v : x ≠ y → untouched hs x (define y v).
Proof.
  intros Hxy P s a s' _. rewrite run_define. intros [= _ <-]. cbn [macros].
  by rewrite lookup_insert_ne.
Qed.

Lemma untouched_include h : h ∈ hs → untouched hs x (include h).
Proof.
  intros Hin P s a s' HP. rewrite run_include.
  destruct (headers P !! h) as [H|] eqn:Hh; [| discriminate].
  intros [= _ <-]. cbn [macros]. apply lookup_union_r.
  unfold not_defined_by in HP. rewrite Forall_forall in HP.
  specialize (HP h Hin). unfold defines_not in HP. by rewrite Hh in HP.
Qed.

Lemma untouched_not c : untouched hs x c → untouched hs x (pp_not c).
Proof. intros. apply untouched_bind; [done | intros; apply untouched_ret]. Qed.
Lemma untouched_or a b :
  untouched hs x a → untouched hs x b → untouched hs x (pp_or a b).
Proof.
  intros. apply untouched_bind; [done |].
  intros []; [apply untouched_ret | done].
Qed.
Lemma untouched_and a b :
  untouched hs x a → untouched hs x b → untouched hs x (pp_and a b).
Proof.
  intros. apply untouched_bind; [done |].
  intros []; [done | apply untouched_ret].
Qed.
Lemma untouched_if c t e :
  untouched hs x c → untouched hs x t → untouched hs x e →
  untouched hs x (pp_if c t e).
Proof. intros. apply untouched_bind; [done |]. by intros []. Qed.
Lemma untouched_when c t :
  untouched hs x c → untouched hs x t → untouched hs x (pp_when c t).
Proof. intros. apply untouched_if; [done | done | apply untouched_ret]. Qed.
End untouched_directives.

Ltac solve_untouched :=
  repeat first
    [ apply untouched_when | apply untouched_if | apply untouched_not
    | apply untouched_or | apply untouched_and
    | apply untouched_ret | apply untouched_defined
    | apply untouched_has_include
    | apply untouched_include; in_list
    | apply untouched_define; assumption
    | apply untouched_bind; [| intros ?] ].

(** A block touches the macro of its fact and what its headers define. *)
Lemma untouched_resolve f x :
  x ≠ fact_macro f → untouched (block_headers f) x (resolve f).
Proof.
  intros Hf.
  destruct f; cbn [resolve fact_macro block_headers] in *;
    unfold check_fdatasync, check_fullfsync, check_crc32c, check_snappy,
      check_endianness; solve_untouched.
Qed.

Lemma untouched_port_config x :
  x ≠ include_guard → (∀ f, x ≠ fact_macro f) →
  untouched all_headers x port_config.
Proof.
  intros Hg Hf.
  pose proof (Hf HasRangeSync) as H1. pose proof (Hf HasFullFsync) as H2.
  pose proof (Hf HasHardwareCrc) as H3. pose proof (Hf HasCompressionLib) as H4.
  pose proof (Hf IsBigEndian) as H5.
  unfold include_guard in Hg. cbn [fact_macro] in *.
  unfold port_config, check_fdatasync, check_fullfsync, check_crc32c,
    check_snappy, check_endianness.
  solve_untouched.
Qed.

Lemma grows_port_config : grows port_config.
Proof. unfold port_config. solve_grows. Qed.

(** X9. The header defines six names and no other: its guard and the
    macros of the five facts.  A name that was defined stays defined --
    the header has no [#undef] -- and any other name that none of the
    seven system headers it can include defines has after the header the
    definition, or the lack of one, that it had before; in particular
    the header never defines a platform macro. *)
Theorem port_config_defines_own_names_only (P : platform) (s s' : pp_state)
    (x : string) :
  port_config P s = Ok tt s' →
  (is_Some (macros s !! x) → is_Some (macros s' !! x)) ∧
  (x ≠ include_guard → (∀ f, x ≠ fact_macro f) →
   not_defined_by all_headers P x →
   macros s' !! x = macros s !! x) ∧
  (hygienic P → x ∈ os_names → macros s' !! x = macros s !! x).
Proof.
  intros Hrun. split_and!.
  - by apply (grows_port_config P s tt s').
  - intros Hg Hf HP. by apply (untouched_port_config x Hg Hf P s tt s').
  - intros HP Hx.
    assert (x ≠ include_guard) as Hg.
    { intros ->. unfold include_guard, os_names in Hx. not_in_list Hx. }
    assert (∀ f, x ≠ fact_macro f) as Hf.
    { intros f ->. apply (os_name_not_fact _ [f] Hx).
      apply list_elem_of_fmap. exists f. split; [done | by left]. }
    apply (untouched_port_config x Hg Hf P s tt s'); [| done].
    apply Forall_forall. intros h _. unfold defines_not.
    destruct (headers P !! h) as [H|] eqn:Hh; [| done].
    eapply hygienic_lookup; eauto using os_name_config.
Qed.

Lemma port_config_defines_own_names_only_witness :
  ∃ s', port_config glibc_linux (cmdline [("NDEBUG", EEmpty)]) = Ok tt s' ∧
        macros s' !! "NDEBUG" = Some EEmpty ∧
        macros s' !! "OS_ANDROID" = None.
Proof.
  eexists. split; [by vm_compute |]. split.
  - by vm_compute.
  - replace (@None pp_expr)
      with (macros (cmdline [("NDEBUG", EEmpty)]) !! "OS_ANDROID")
      by (by vm_compute).
    apply (port_config_defines_own_names_only glibc_linux
             (cmdline [("NDEBUG", EEmpty)]) _ "OS_ANDROID");
      [by vm_compute | by_compute | by_compute].
Defined.

(** ** Which facts are set at the end *)

Lemma arm_table_defines r P m :
  r ≠ Apple → is_Some (arm_table r P m !! "LEVELDB_IS_BIG_ENDIAN").
Proof.
  intros Hr. unfold arm_table.
  destruct r; [done | ..]; cbn [arm_definition];
    rewrite lookup_insert_eq; by eexists.
Qed.

(** X10. After a first inclusion that is processed to its end, the
    guard and the four capability macros are defined on every platform,
    and so is [LEVELDB_IS_BIG_ENDIAN] when it was overridden or when the
    arm taken is any but the Apple one. *)
Theorem facts_resolved_outside_apple (P : platform) (s s' : pp_state) :
  macros s !! include_guard = None →
  port_config P s = Ok tt s' →
  is_Some (macros s' !! include_guard) ∧
  (∀ f, f ≠ IsBigEndian → is_Some (macros s' !! fact_macro f)) ∧
  (is_Some (macros s !! "LEVELDB_IS_BIG_ENDIAN") →
   ∀ f, is_Some (macros s' !! fact_macro f)) ∧
  (hygienic P → ∀ r, first_match r (macros s) → r ≠ Apple →
   ∀ f, is_Some (macros s' !! fact_macro f)).
Proof.
  intros Hg Hrun.
  assert (Hcap : ∀ f, f ≠ IsBigEndian → is_Some (macros s' !! fact_macro f))
    by (intros f; by apply (capabilities_resolved P s s' f)).
  assert (Hall : is_Some (macros s' !! "LEVELDB_IS_BIG_ENDIAN") →
                 ∀ f, is_Some (macros s' !! fact_macro f)).
  { intros Hdef f. destruct (decide (f = IsBigEndian)) as [-> | Hf]; auto. }
  split_and!; [| done | |].
  - rewrite port_config_fresh in Hrun by done.
    eapply grows_run_blocks; [exact Hrun |].
    cbn [enter macros]. by rewrite lookup_insert_eq.
  - intros Hdef. apply Hall. by apply (grows_port_config P s tt s').
  - intros HP r Hr Hne. apply Hall.
    destruct (macros s !! "LEVELDB_IS_BIG_ENDIAN") as [v|] eqn:Hs.
    { apply (grows_port_config P s tt s' _ Hrun). by rewrite Hs. }
    destruct (port_config_run P s HP Hg Hs) as (s4 & _ & Hw).
    rewrite (first_match_matched r _ Hr) in Hw.
    destruct (first_missing P _); [congruence |].
    destruct Hw as (s'' & E & Em). rewrite E in Hrun. injection Hrun as <-.
    rewrite Em. by apply arm_table_defines.
Qed.

Lemma facts_resolved_outside_apple_witness :
  ∃ s', port_config bsd_bare (cmdline [("OS_OPENBSD", ENum 1)]) = Ok tt s' ∧
        ∀ f, is_Some (macros s' !! fact_macro f).
Proof.
  destruct (port_config bsd_bare (cmdline [("OS_OPENBSD", ENum 1)]))
    as [[] s'|e] eqn:Hrun; [| by vm_compute in Hrun].
  exists s'. split; [done |].
  destruct (facts_resolved_outside_apple bsd_bare
              (cmdline [("OS_OPENBSD", ENum 1)]) s') as (_ & _ & _ & Hall);
    [by vm_compute | exact Hrun |].
  apply (Hall ltac:(by_compute) Bsd); [by_compute | done].
Defined.

(** ** Each block on its own is idempotent *)

Lemma map_union_twice (H m : gmap string pp_expr) : H ∪ (H ∪ m) = H ∪ m.
Proof. by rewrite (assoc_L (∪)), (idemp_L (∪)). Qed.

Lemma with_header_twice P m h :
  with_header P (with_header P m h) h = with_header P m h.
Proof.
  unfold with_header. destruct (headers P !! h); [| done].
  apply map_union_twice.
Qed.

(** X11. Running the block of a fact a second time, right after the
    first, leaves the macro table as the first run left it: the include
    guard is not what makes the blocks idempotent. *)
Theorem block_idempotent (f : fact) (P : platform) (s s1 : pp_state) :
  resolve f P s = Ok tt s1 →
  ∃ s2, resolve f P s1 = Ok tt s2 ∧ macros s2 = macros s1.
Proof.
  intros Hrun.
  destruct (macros s1 !! fact_macro f) as [v|] eqn:Hs1.
  { rewrite resolve_override by done. eexists. by split. }
  assert (f = IsBigEndian) as ->.
  { destruct (decide (f = IsBigEndian)) as [-> | Hf]; [done |].
    destruct (resolve_capability f P s Hf) as (s1' & E & [w Hw]).
    rewrite E in Hrun. injection Hrun as <-. congruence. }
  cbn [resolve fact_macro] in *.
  assert (Hs : macros s !! "LEVELDB_IS_BIG_ENDIAN" = None).
  { apply eq_None_not_Some. intros Hdef.
    destruct (grows_check_endianness P s tt s1 _ Hrun Hdef). congruence. }
  pose proof (endianness_unset_only_apple P s s1 Hs Hrun Hs1) as Hr.
  pose proof (check_endianness_run P s Hs) as Hb. cbn zeta in Hb.
  rewrite Hr in Hb.
  destruct (first_missing P (rule_headers Apple)) eqn:Hf; [congruence |].
  destruct Hb as (s1' & E & Em). rewrite E in Hrun. injection Hrun as <-.
  assert (Hr1 : matched_rule (macros s1') = Apple).
  { apply first_match_matched. split; [constructor |]. right.
    pose proof (matched_rule_first_match (macros s)) as [_ Hex].
    rewrite Hr in Hex. destruct Hex as [? | Hex]; [done |].
    eapply Exists_impl; [exact Hex |]. intros x Hx.
    by eapply grows_check_endianness. }
  pose proof (check_endianness_run P s1' Hs1) as Hb. cbn zeta in Hb.
  rewrite Hr1, Hf in Hb. destruct Hb as (s2 & E2 & Em2).
  exists s2. split; [done |]. rewrite Em2, Em.
  unfold arm_table in *. cbn [rule_headers foldl] in *.
  destruct (arm_definition Apple (with_header P (macros s) "machine/endian.h"))
    as [e|] eqn:Hd.
  { rewrite Em, lookup_insert_eq in Hs1. done. }
  by rewrite with_header_twice, Hd.
Qed.

Lemma block_idempotent_witness :
  ∃ s1 s2,
    check_fdatasync macro_unix (cmdline []) = Ok tt s1 ∧
    check_fdatasync macro_unix s1 = Ok tt s2 ∧ macros s2 = macros s1.
Proof.
  eexists.
  destruct (block_idempotent HasRangeSync macro_unix (cmdline []) _
              ltac:(by vm_compute)) as (s2 & Hrun & E).
  exists s2. split; [reflexivity |]. by split.
Defined.

(** ** Detected facts are flags *)

(** The replacement lists the header itself writes: [0], [1], [true],
    [false] and a comparison. *)
Definition flag_shaped (e : pp_expr) : Prop :=
  match e with
  | ENum n => n = 0 ∨ n = 1
  | EBool _ | EEq _ _ => True
  | EEmpty | EId _ => False
  end.

Lemma eval_flag k m e v :
  flag_shaped e → eval k m e = Some v → v = 0 ∨ v = 1.
Proof.
  destruct k as [|k]; [done |]. destruct e; cbn [flag_shaped eval]; try done.
  - by intros Hn [= <-].
  - intros _ [= <-]. destruct b; auto.
  - intros _. destruct (eval k m e1) as [x|]; [| done].
    destruct (eval k m e2) as [y|]; [| done]. cbn.
    intros [= <-]. destruct (x =? y); auto.
Qed.

Lemma with_headers_None P hs m x :
  hygienic P → x ∈ config_names → m !! x = None →
  foldl (with_header P) m hs !! x = None.
Proof.
  intros HP Hx. revert m. induction hs as [|h hs IH]; intros m Hm; [done |].
  cbn [foldl]. apply IH. unfold with_header.
  destruct (headers P !! h) as [H|] eqn:Hh; [| done].
  rewrite lookup_union_r; [done |]. by eapply hygienic_lookup.
Qed.

(** What a block leaves for its macro when it found it undefined. *)
Lemma resolve_flag f P s s' :
  hygienic P → macros s !! fact_macro f = None →
  resolve f P s = Ok tt s' →
  match macros s' !! fact_macro f with
  | Some e => flag_shaped e
  | None => True
  end.
Proof.
  intros HP Hs. destruct f; cbn [resolve fact_macro] in *.
  - rewrite check_fdatasync_probe.
    destruct (probe_block_value _ "unistd.h" "fdatasync" P s Hs) as (t & -> & E).
    intros [= <-]. rewrite E. cbn. destruct (detects _ _ _ _); auto.
  - rewrite check_fullfsync_probe.
    destruct (probe_block_value _ "fcntl.h" "F_FULLFSYNC" P s Hs) as (t & -> & E).
    intros [= <-]. rewrite E. cbn. destruct (detects _ _ _ _); auto.
  - unfold check_crc32c. rewrite default_block_run by done. intros [= <-].
    cbn [macros]. rewrite lookup_insert_eq. cbn. auto.
  - unfold check_snappy. rewrite default_block_run by done. intros [= <-].
    cbn [macros]. rewrite lookup_insert_eq. cbn. auto.
  - pose proof (check_endianness_run P s Hs) as Hb. cbn zeta in Hb.
    destruct (first_missing P _); [congruence |].
    destruct Hb as (t & -> & E). intros [= <-]. rewrite E. unfold arm_table.
    destruct (arm_definition _ _) as [e|] eqn:Hd.
    + rewrite lookup_insert_eq.
      destruct (matched_rule (macros s)); cbn [arm_definition] in Hd;
        repeat case_match; by simplify_eq.
    + rewrite with_headers_None; [done | done | | done].
      apply (fact_macro_config IsBigEndian).
Qed.

(** X12. Whatever the header resolves by itself is a flag: with no
    override of a fact, the value of its macro at the end of the block,
    and at the end of the header, is 0 or 1 whenever it has a value. *)
Theorem detected_facts_are_flags (f : fact) (P : platform) (s : pp_state) :
  hygienic P →
  macros s !! fact_macro f = None →
  (∀ s' k v, resolve f P s = Ok tt s' →
     fact_value k s' f = Some v → v = 0 ∨ v = 1) ∧
  (macros s !! include_guard = None →
   ∀ s' k v, port_config P s = Ok tt s' →
     fact_value k s' f = Some v → v = 0 ∨ v = 1).
Proof.
  intros HP Hs.
  assert (Hflag : ∀ s' k v,
    match macros s' !! fact_macro f with
    | Some e => flag_shaped e
    | None => True
    end → fact_value k s' f = Some v → v = 0 ∨ v = 1).
  { intros s' k v Hshape. unfold fact_value.
    destruct (macros s' !! fact_macro f) as [e|]; [| done].
    cbn. by apply eval_flag. }
  split.
  - intros s' k v Hrun. apply Hflag. by apply (resolve_flag f P s).
  - intros Hg s' k v Hrun. apply Hflag.
    destruct (port_config_capability f P s s' HP Hg Hs Hrun)
      as (s1 & s2 & _ & Hs1 & H2 & ->).
    by apply (resolve_flag f P s1).
Qed.

Lemma detected_facts_are_flags_witness :
  ∃ s', port_config freebsd_be (cmdline [("OS_FREEBSD", ENum 1)]) = Ok tt s' ∧
        ∀ k v, fact_value k s' IsBigEndian = Some v → v = 0 ∨ v = 1.
Proof.
  destruct (port_config freebsd_be (cmdline [("OS_FREEBSD", ENum 1)]))
    as [[] s'|e] eqn:Hrun; [| by vm_compute in Hrun].
  exists s'. split; [done |]. intros k v.
  destruct (detected_facts_are_flags IsBigEndian freebsd_be
              (cmdline [("OS_FREEBSD", ENum 1)])) as [_ Hw];
    [by_compute | by vm_compute |].
  apply Hw; [by vm_compute | exact Hrun].
Defined.

(** ** The blocks in any order *)

(** The headers of one block define none of the names another block
    probes. *)
Definition separated (P : platform) : Prop :=
  Forall (λ fg : fact * fact,
            fg.1 ≠ fg.2 →
            Forall (not_defined_by (block_headers fg.2) P) (probe_names fg.1))
         (list_prod all_facts all_facts).

Global Instance separated_dec P : Decision (separated P).
Proof. unfold separated, not_defined_by. apply _. Defined.

Lemma separated_elem P f g x :
  separated P → f ≠ g → x ∈ probe_names f →
  not_defined_by (block_headers g) P x.
Proof.
  intros HP Hne Hx. unfold separated in HP. rewrite Forall_forall in HP.
  specialize (HP (f, g)). cbn [fst snd] in HP.
  assert (Hin : (f, g) ∈ list_prod all_facts all_facts).
  { destruct f, g; apply (bool_decide_unpack _); by vm_compute. }
  specialize (HP Hin Hne). rewrite Forall_forall in HP. by apply HP.
Qed.

Lemma probe_name_not_fact f g x : x ∈ probe_names f → x ≠ fact_macro g.
Proof.
  intros Hx ->. destruct f, g; cbn [probe_names fact_macro app os_names] in Hx;
    not_in_list Hx.
Qed.

(** Another block leaves the inputs of the block of [f] as they were. *)
Lemma resolve_other_inputs f g P s s1 :
  hygienic P → separated P → f ≠ g →
  resolve g P s = Ok tt s1 →
  macros s1 !! fact_macro f = macros s !! fact_macro f ∧
  agree_on (probe_names f) (macros s1) (macros s).
Proof.
  intros HP HS Hne Hrun. split.
  - assert (fact_macro f ≠ fact_macro g) as Hm
      by (intros E; by apply fact_macro_inj in E).
    exact (frames_resolve g _ (fact_macro_config f) Hm P s tt s1 HP Hrun).
  - apply Forall_forall. intros x Hx. unfold is_defined.
    rewrite (untouched_resolve g x (probe_name_not_fact f g x Hx) P s tt s1);
      [done | | done].
    by apply (separated_elem P f g).
Qed.

Lemma same_outcome_Ok f r t' :
  same_outcome f r (Ok tt t') →
  ∃ t, r = Ok tt t ∧ macros t !! fact_macro f = macros t' !! fact_macro f.
Proof. destruct r as [[] t|e]; cbn [same_outcome]; [eauto | done]. Qed.

(** X13. On a platform whose headers keep to their own names, the
    blocks can be taken in any order, each once: the macro of every
    fact ends as the block of that fact, run alone on the table the
    build passed, would leave it.  The header, which takes them in the
    order of the source, is one such run. *)
Theorem blocks_in_any_order (P : platform) (s s' : pp_state)
    (fs : list fact) (f : fact) :
  hygienic P → separated P →
  (NoDup fs → f ∈ fs → run_blocks fs P s = Ok tt s' →
   ∃ t, resolve f P s = Ok tt t ∧
        macros s' !! fact_macro f = macros t !! fact_macro f) ∧
  (macros s !! include_guard = None → port_config P s = Ok tt s' →
   ∃ t, resolve f P s = Ok tt t ∧
        macros s' !! fact_macro f = macros t !! fact_macro f).
Proof.
  intros HP HS.
  assert (Hany : ∀ fs s s', NoDup fs → f ∈ fs → run_blocks fs P s = Ok tt s' →
    ∃ t, resolve f P s = Ok tt t ∧
         macros s' !! fact_macro f = macros t !! fact_macro f).
  { clear s s' fs. intros fs. induction fs as [|g fs IH]; intros s s' Hnd Hin.
    { by apply elem_of_nil in Hin. }
    apply NoDup_cons in Hnd as [Hg Hnd].
    intros (s1 & H1 & H2)%run_blocks_cons.
    destruct (decide (f = g)) as [<- | Hne].
    - exists s1. split; [done |].
      assert (fact_macro f ∉ fact_macro <$> fs) as Hnf.
      { intros (f' & E & Hf')%list_elem_of_fmap.
        apply fact_macro_inj in E. by subst f'. }
      exact (frames_run_blocks _ fs (fact_macro_config f) Hnf P s1 tt s' HP H2).
    - apply elem_of_cons in Hin as [-> | Hin]; [done |].
      destruct (IH s1 s' Hnd Hin H2) as (t1 & R1 & E1).
      destruct (resolve_other_inputs f g P s s1 HP HS Hne H1) as [Eo Ep].
      pose proof (resolve_own_inputs f P s s1 (eq_sym Eo)) as Hsame.
      rewrite R1 in Hsame.
      destruct (same_outcome_Ok f _ t1 (Hsame ltac:(
        unfold agree_on in *; eapply Forall_impl; [exact Ep |];
        intros x Hx; by symmetry))) as (t & R & E).
      exists t. split; [done |]. by rewrite E1, E. }
  split; [apply Hany |].
  intros Hg Hrun. rewrite port_config_fresh in Hrun by done.
  assert (Hf : f ∈ all_facts) by (destruct f; unfold all_facts; repeat constructor).
  destruct (Hany all_facts (enter s) s' all_facts_NoDup Hf Hrun) as (t1 & R1 & E1).
  pose proof (resolve_own_inputs f P s (enter s)) as Hsame.
  rewrite R1 in Hsame.
  destruct (same_outcome_Ok f _ t1 (Hsame
    ltac:(cbn [enter macros]; symmetry; apply lookup_insert_ne; intros E;
          by apply (fact_macro_not_guard f))
    ltac:(apply Forall_forall; intros x Hx; cbn [enter macros];
          symmetry; apply is_defined_insert_ne; intros <-;
          destruct f; cbn [probe_names app os_names] in Hx;
          unfold include_guard in Hx; not_in_list Hx)))
    as (t & R & E).
  exists t. split; [done |]. by rewrite E1, E.
Qed.

Lemma blocks_in_any_order_witness :
  ∃ s' t,
    run_blocks [IsBigEndian; HasCompressionLib; HasFullFsync; HasRangeSync]
      darwin (cmdline [("OS_MACOSX", ENum 1)]) = Ok tt s' ∧
    check_fullfsync darwin (cmdline [("OS_MACOSX", ENum 1)]) = Ok tt t ∧
    macros s' !! "HAVE_FULLFSYNC" = macros t !! "HAVE_FULLFSYNC".
Proof.
  destruct (run_blocks [IsBigEndian; HasCompressionLib; HasFullFsync; HasRangeSync]
              darwin (cmdline [("OS_MACOSX", ENum 1)]))
    as [[] s'|e] eqn:Hrun; [| by vm_compute in Hrun].
  destruct (blocks_in_any_order darwin (cmdline [("OS_MACOSX", ENum 1)]) s'
              [IsBigEndian; HasCompressionLib; HasFullFsync; HasRangeSync]
              HasFullFsync) as [Hany _]; [by_compute | by_compute |].
  destruct Hany as (t & R & E); [by_compute | by_compute | exact Hrun |].
  by exists s', t.
Defined.
